(** * Long-polling server: client registry, mailboxes, handlers and sweeper

    A shallow embedding of the per-client long-polling server (the Go
    program with [subscribeHandler], [pollHandler], [publishHandler] and
    [cleanUpInactiveClients]) and the properties of its registry and
    delivery mechanism.

    Modelling choices, all taken from the source:
    - [time.Time] and [time.Duration] are integers counting nanoseconds;
      every clock reading [time.Now()] is an explicit argument [now].
    - [clientChannels] is a [gmap string loc]: the Go map holds pointers
      [*ClientState], so the registry stores addresses and the objects live
      in a separate store.  Handlers keep the pointer they looked up after
      the lock is released, which is what makes eviction and re-subscription
      visible to requests that are already in flight.
    - Each [ClientState] owns the one channel created with it and the
      [Channel] field is never reassigned, so the channel object is stored
      inside its [ClientState].
    - A region guarded by [mu] is one atomic step.  Everything a handler
      does outside the lock is a step of its own.
    - What the runtime decides is an argument: the case a [select] picks
      when two are ready, the order in which [range] visits the map, and
      the clock readings of the sweeper's [time.Since]. *)

From stdpp Require Import gmap strings list fin_maps gmultiset.

(** ** Time *)

Definition Second : Z := 1000000000.
Definition Minute : Z := 60 * Second.

(** [clientTimeout = 1 * time.Minute] *)
Definition clientTimeout : Z := 1 * Minute.
(** [time.After(30 * time.Second)] in [pollHandler] *)
Definition pollTimeout : Z := 30 * Second.

(** ** Events and channels *)

Record Event := mkEvent { Message : string; Time : Z }.

(** The zero value [Event{}], which a receive on a closed, drained channel
    yields. *)
Definition zeroEvent : Event := mkEvent "" 0.

Global Instance Event_eq_dec : EqDecision Event.
Proof. solve_decision. Defined.

Global Instance Event_countable : Countable Event :=
  inj_countable' (λ e, (Message e, Time e)) (λ mt, mkEvent mt.1 mt.2)
                 (λ e, match e with mkEvent _ _ => eq_refl end).

(** A Go channel of events created by [make(chan Event, 1)]: the buffered
    elements in arrival order and the closed flag. *)
Record chan := mkChan { buf : list Event; closed : bool }.

(** The [1] of [make(chan Event, 1)], at both creation sites. *)
Definition mailboxCap : nat := 1.

Definition make_chan : chan := mkChan [] false.

(** [select { case ch <- e: ... default: ... }]: a send that never blocks.
    Sending on a closed channel panics, also inside a [select]. *)
Inductive send_result :=
| SendOk (c : chan)
| SendFull
| SendPanic.

Definition chan_try_send (e : Event) (c : chan) : send_result :=
  if closed c then SendPanic
  else if decide (length (buf c) < mailboxCap)%nat
       then SendOk (mkChan (buf c ++ [e]) false)
       else SendFull.

(** [v, ok := <-ch] when it can proceed: a buffered element first; on a
    closed and drained channel the zero value with [ok = false]; [None]
    when the receive would block. *)
Definition chan_try_recv (c : chan) : option (Event * bool * chan) :=
  match buf c with
  | e :: rest => Some (e, true, mkChan rest (closed c))
  | [] => if closed c then Some (zeroEvent, false, c) else None
  end.

(** [close(ch)]; closing a closed channel panics ([None]). *)
Definition chan_close (c : chan) : option chan :=
  if closed c then None else Some (mkChan (buf c) true).

(** ** The registry *)

Definition loc := positive.

Record ClientState := mkClient { Channel : chan; LastSeen : Z }.

Inductive LogLine :=
| LogSubscribed (clientId : string)
| LogPollTimeout (clientId : string)
| LogCleaned (clientId : string)
| LogActive (remaining : nat).

(** The package-level state: the map [clientChannels], the objects its
    pointers refer to, and the lines written with [log.Printf]. *)
Record Server := mkServer {
  clientChannels : gmap string loc;
  heap : gmap loc ClientState;
  logs : list LogLine
}.

Definition emptyServer : Server := mkServer ∅ ∅ [].

(** [&ClientState{...}]: a new object at an address no object has. *)
Definition alloc (cs : ClientState) (h : gmap loc ClientState) : loc * gmap loc ClientState :=
  let p := fresh (dom h) in (p, <[p := cs]> h).

(** ** Responses *)

Inductive Body :=
| BNil
| BClientId (clientId : string)
| BEvent (e : Event)
| BMessage (m : string)
| BError (m : string).

Record Response := mkResp { status : nat; body : Body }.

Definition StatusOK : nat := 200.
Definition StatusNoContent : nat := 204.
Definition StatusBadRequest : nat := 400.
Definition StatusNotFound : nat := 404.
Definition StatusInternalServerError : nat := 500.
Definition StatusServiceUnavailable : nat := 503.

(** The outcomes the specification names, as responses. *)
Definition Delivered (e : Event) : Response := mkResp StatusOK (BEvent e).
Definition TimedOut : Response := mkResp StatusNoContent BNil.
Definition Accepted : Response := mkResp StatusOK (BMessage "Event published.").
Definition RejectedNotFound : Response :=
  mkResp StatusNotFound (BError "Client not found").
Definition RejectedMailboxFull : Response :=
  mkResp StatusServiceUnavailable (BError "Client channel is full, skipping event.").
Definition ClientIdRequired : Response :=
  mkResp StatusBadRequest (BError "clientId is required").

(** ** subscribeHandler *)

Definition subscribeHandler (now : Z) (clientId : string) (σ : Server)
  : Response * Server :=
  let clientChan := make_chan in
  let '(p, h) := alloc (mkClient clientChan now) (heap σ) in
  (mkResp StatusOK (BClientId clientId),
   mkServer (<[clientId := p]> (clientChannels σ)) h
            (logs σ ++ [LogSubscribed clientId])).

(** ** pollHandler *)

(** The region of [pollHandler] between [mu.Lock()] and [mu.Unlock()]:
    look the client up, create it when absent, refresh [LastSeen]
    otherwise.  Returns the pointer the handler keeps in [client]. *)
Definition getOrCreate (now : Z) (clientId : string) (σ : Server) : loc * Server :=
  match clientChannels σ !! clientId with
  | None =>
      let clientChan := make_chan in
      let '(p, h) := alloc (mkClient clientChan now) (heap σ) in
      (p, mkServer (<[clientId := p]> (clientChannels σ)) h
                   (logs σ ++ [LogSubscribed clientId]))
  | Some p =>
      (p, mkServer (clientChannels σ)
                   (alter (λ cs, mkClient (Channel cs) now) p (heap σ))
                   (logs σ))
  end.

(** [event := <-client.Channel] through the pointer [p], when it can
    proceed.  The handler drops the [ok] flag, so it is returned only for
    stating properties. *)
Definition recvFrom (p : loc) (σ : Server) : option (Event * bool * Server) :=
  cs ← heap σ !! p;
  '(e, ok, c) ← chan_try_recv (Channel cs);
  Some (e, ok, mkServer (clientChannels σ)
                        (<[p := mkClient c (LastSeen cs)]> (heap σ))
                        (logs σ)).

Inductive select_outcome :=
| SelEvent (e : Event) (ok : bool)
| SelTimeout.

(** The [select] of [pollHandler] at clock reading [now], with the timer
    of [time.After] firing at [deadline].  When both cases are ready Go
    picks one at random: [pick] is that choice ([true] for the receive).
    [None] when neither case is ready and the goroutine stays parked.  A
    parked goroutine is woken by the first case that becomes ready; here it
    looks at both cases when it is next run, which allows every outcome Go
    can produce, and some more when both have become ready meanwhile. *)
Definition pollSelect (now deadline : Z) (pick : bool) (clientId : string)
    (p : loc) (σ : Server) : option (select_outcome * Response * Server) :=
  let timedOut :=
    (SelTimeout, mkResp StatusNoContent BNil,
     mkServer (clientChannels σ) (heap σ) (logs σ ++ [LogPollTimeout clientId])) in
  match recvFrom p σ, bool_decide (deadline ≤ now)%Z with
  | Some (e, ok, σ'), true =>
      if pick then Some (SelEvent e ok, mkResp StatusOK (BEvent e), σ')
      else Some timedOut
  | Some (e, ok, σ'), false => Some (SelEvent e ok, mkResp StatusOK (BEvent e), σ')
  | None, true => Some timedOut
  | None, false => None
  end.

(** ** publishHandler *)

(** What [c.BindJSON(&req)] gives: an error, or the bound [req.Message]. *)
Inductive bind_result :=
| BindError (err : string)
| BindOk (message : string).

(** The region of [publishHandler] under [mu.RLock()]. *)
Definition lookup (clientId : string) (σ : Server) : option loc :=
  clientChannels σ !! clientId.

Inductive publish_outcome :=
| PubSent (e : Event)
| PubFull
| PubPanic.

(** The [select] with [default] of [publishHandler] through the pointer
    [p]; the event is stamped with the clock reading [now].  A panic is
    turned into a 500 by the recovery middleware of [gin.Default()]. *)
Definition sendTo (now : Z) (p : loc) (message : string) (σ : Server)
  : option (publish_outcome * Response * Server) :=
  cs ← heap σ !! p;
  let e := mkEvent message now in
  Some match chan_try_send e (Channel cs) with
       | SendOk c =>
           (PubSent e, mkResp StatusOK (BMessage "Event published."),
            mkServer (clientChannels σ)
                     (<[p := mkClient c (LastSeen cs)]> (heap σ)) (logs σ))
       | SendFull =>
           (PubFull,
            mkResp StatusServiceUnavailable
                   (BError "Client channel is full, skipping event."), σ)
       | SendPanic =>
           (PubPanic, mkResp StatusInternalServerError BNil, σ)
       end.

(** ** cleanUpInactiveClients *)

(** The body of the [range] loop for one entry of the map:
    [time.Since(clientState.LastSeen) > clientTimeout] decides; an idle
    entry is deleted, two lines are logged and its channel is closed.
    [None] is the panic of closing a closed channel. *)
Definition sweepEntry (now : Z) (σ : Server) (entry : string * loc) : option Server :=
  let '(clientId, p) := entry in
  clientState ← heap σ !! p;
  if bool_decide (now - LastSeen clientState > clientTimeout)%Z then
    let m := delete clientId (clientChannels σ) in
    c ← chan_close (Channel clientState);
    Some (mkServer m (<[p := mkClient c (LastSeen clientState)]> (heap σ))
                   (logs σ ++ [LogCleaned clientId; LogActive (size m)]))
  else Some σ.

(** [for clientId, clientState := range clientChannels].  A Go map is
    ranged over in an order the runtime chooses anew for every loop, and
    [time.Since] reads the clock once for every entry.  Neither is decided
    by the program, so both are arguments: [visits] lists the keys in the
    order [range] yields them, each with the clock reading of its
    [time.Since].  [range] yields a key with the value the map holds for it
    at that moment, and does not yield a key the map no longer has. *)
Fixpoint sweepLoop (visits : list (string * Z)) (σ : Server) : option Server :=
  match visits with
  | [] => Some σ
  | (clientId, now) :: rest =>
      match clientChannels σ !! clientId with
      | Some clientState =>
          σ' ← sweepEntry now σ (clientId, clientState); sweepLoop rest σ'
      | None => sweepLoop rest σ
      end
  end.

(** One pass of the loop of [cleanUpInactiveClients], between [mu.Lock()]
    and [mu.Unlock()].  The function has no result: the only numbers it
    produces are the [LogActive] lines. *)
Definition cleanUpInactiveClients (visits : list (string * Z)) (σ : Server)
  : option Server :=
  sweepLoop visits σ.

(** The visits [range] can make over the map of [σ]: the loop deletes only
    the entry it is visiting, so every key the map has when the pass begins
    is yielded, once. *)
Definition ranges (visits : list (string * Z)) (σ : Server) : Prop :=
  NoDup visits.*1 ∧ (list_to_set visits.*1 : gset string) = dom (clientChannels σ).

Global Instance ranges_dec visits σ : Decision (ranges visits σ).
Proof. unfold ranges. apply _. Defined.

(** The clock readings of a pass that begins at [now]: [delays] gives, for
    every key in visiting order, the time that passes before the clock is
    read for it. *)
Fixpoint readings (now : Z) (delays : list (string * Z)) : list (string * Z) :=
  match delays with
  | [] => []
  | (clientId, d) :: rest => (clientId, now + d)%Z :: readings (now + d) rest
  end.

(** The time a pass takes. *)
Definition elapsed (delays : list (string * Z)) : Z :=
  foldr (λ kd acc, kd.2 + acc)%Z 0%Z delays.

(** ** Requests in flight *)

(** Where a handler goroutine is.  A constructor with a [client] is a
    handler that has released the lock and holds the pointer it found. *)
Inductive thread :=
| SubscribeEntry (clientId : string)
| PollEntry (clientId : string)
| PollUnlocked (clientId : string) (client : loc)
| PollWaiting (clientId : string) (client : loc) (deadline : Z)
| PublishEntry (clientId : string) (req : bind_result)
| PublishFound (client : loc) (message : string)
| Finished (r : Response).

(** What a step does to a mailbox, kept to state conservation of events. *)
Inductive obs :=
| Deposited (e : Event)
| Consumed (e : Event).

(** One atomic step of a handler at clock reading [now]; [None] when the
    goroutine cannot move (parked in [select], or finished). *)
Definition thread_step (now : Z) (pick : bool) (t : thread) (σ : Server)
  : option (thread * Server * list obs) :=
  match t with
  | SubscribeEntry clientId =>
      let '(r, σ') := subscribeHandler now clientId σ in
      Some (Finished r, σ', [])
  | PollEntry clientId =>
      if decide (clientId = "") then Some (Finished ClientIdRequired, σ, [])
      else let '(p, σ') := getOrCreate now clientId σ in
           Some (PollUnlocked clientId p, σ', [])
  | PollUnlocked clientId p =>
      Some (PollWaiting clientId p (now + pollTimeout), σ, [])
  | PollWaiting clientId p deadline =>
      '(o, r, σ') ← pollSelect now deadline pick clientId p σ;
      Some (Finished r, σ',
            match o with SelEvent e true => [Consumed e] | _ => [] end)
  | PublishEntry clientId req =>
      if decide (clientId = "") then Some (Finished ClientIdRequired, σ, [])
      else match req with
           | BindError err =>
               Some (Finished (mkResp StatusBadRequest (BError err)), σ, [])
           | BindOk message =>
               match lookup clientId σ with
               | None => Some (Finished RejectedNotFound, σ, [])
               | Some p => Some (PublishFound p message, σ, [])
               end
           end
  | PublishFound p message =>
      '(o, r, σ') ← sendTo now p message σ;
      Some (Finished r, σ',
            match o with PubSent e => [Deposited e] | _ => [] end)
  | Finished _ => None
  end.

(** [publishHandler] run from entry to response with no other step in
    between. *)
Definition publishHandler (now : Z) (clientId : string) (req : bind_result)
    (σ : Server) : option (Response * Server) :=
  '(t, σ1, _) ← thread_step now true (PublishEntry clientId req) σ;
  match t with
  | Finished r => Some (r, σ1)
  | _ => '(t', σ2, _) ← thread_step now true t σ1;
         match t' with Finished r => Some (r, σ2) | _ => None end
  end.

(** [pollHandler] run from entry to response with no step of another
    goroutine in between: the lock region and [time.After] at clock reading
    [now], the [select] resolved at [wake].  [None] when the handler is
    still parked at [wake]. *)
Definition pollHandler (now wake : Z) (pick : bool) (clientId : string)
    (σ : Server) : option (Response * Server) :=
  '(t1, σ1, _) ← thread_step now pick (PollEntry clientId) σ;
  match t1 with
  | Finished r => Some (r, σ1)
  | _ => '(t2, σ2, _) ← thread_step now pick t1 σ1;
         '(t3, σ3, _) ← thread_step wake pick t2 σ2;
         match t3 with Finished r => Some (r, σ3) | _ => None end
  end.

(** ** The running server *)

Record Config := mkConfig {
  server : Server;
  clock : Z;
  pool : list thread;
  history : list obs
}.

Definition initial : Config := mkConfig emptyServer 0 [] [].

Definition is_entry (t : thread) : bool :=
  match t with
  | SubscribeEntry _ | PollEntry _ | PublishEntry _ _ => true
  | _ => false
  end.

(** What can happen next: time passes, a request arrives, a goroutine
    takes a step, or the sweeper wakes up and makes a pass.  The sweeper's
    [time.Sleep] is not modelled: a pass may come at any instant, which
    includes every instant at which the sweeper does wake up.  A pass
    visits the keys of the map in the order [delays] lists them, and the
    clock moves on by the given time before each [time.Since]. *)
Inductive action :=
| Elapse (d : Z)
| Arrive (t : thread)
| Run (i : nat) (pick : bool)
| Sweep (delays : list (string * Z)).

Definition exec1 (a : action) (c : Config) : option Config :=
  match a with
  | Elapse d =>
      if decide (0 ≤ d)%Z
      then Some (mkConfig (server c) (clock c + d) (pool c) (history c))
      else None
  | Arrive t =>
      if is_entry t
      then Some (mkConfig (server c) (clock c) (pool c ++ [t]) (history c))
      else None
  | Run i pick =>
      t ← pool c !! i;
      '(t', σ', o) ← thread_step (clock c) pick t (server c);
      Some (mkConfig σ' (clock c) (<[i := t']> (pool c)) (history c ++ o))
  | Sweep delays =>
      if decide (Forall (λ kd, 0 ≤ kd.2)%Z delays ∧ ranges delays (server c))
      then σ' ← cleanUpInactiveClients (readings (clock c) delays) (server c);
           Some (mkConfig σ' (clock c + elapsed delays) (pool c) (history c))
      else None
  end.

Fixpoint exec (s : list action) (c : Config) : option Config :=
  match s with
  | [] => Some c
  | a :: s' => c' ← exec1 a c; exec s' c'
  end.

Definition reachable (c : Config) : Prop := ∃ s, exec s initial = Some c.

(** * The earlier server: one channel for every request *)

(** The earlier [main.go], with [longPollHandler] and its own
    [publishHandler].  All requests share [eventChannel = make(chan Event)],
    a channel without buffer: a send parks until a receive takes its value,
    and a receive parks until a send offers one.  There is no shared state
    besides the channel, which is never closed, so the state of the server
    is the clock and the goroutines of the requests in flight. *)
Module SingleChannel.

(** Where a handler goroutine is: a poll that has armed its timer is in
    its [select], and one whose receive has completed is about to answer
    with the event it took; a publish that has bound its body and built the
    event (stamped when the send statement is reached) is in its send, and
    one whose send has completed is about to answer. *)
Inductive thread :=
| LongPollEntry
| LongPollWaiting (deadline : Z)
| LongPollReceived (event : Event)
| PublishEntry (req : bind_result)
| PublishSending (e : Event)
| PublishSent
| Finished (r : Response).

(** [c.JSON(http.StatusNoContent, gin.H{"message": "No new events."})]:
    a 204 carries no body, so gin writes the status line and drops the
    message. *)
Definition NoNewEvents : Response := mkResp StatusNoContent BNil.

Record Config := mkConfig { clock : Z; pool : list thread }.

Definition initial : Config := mkConfig 0 [].

Definition is_entry (t : thread) : bool :=
  match t with
  | LongPollEntry | PublishEntry _ => true
  | _ => false
  end.

(** What a handler does up to the point where it parks: [longPollHandler]
    arms [time.After(30 * time.Second)]; [publishHandler] binds the body,
    answers 400 when that fails, and otherwise reaches the send. *)
Definition enter (now : Z) (t : thread) : option thread :=
  match t with
  | LongPollEntry => Some (LongPollWaiting (now + pollTimeout))
  | PublishEntry (BindError err) =>
      Some (Finished (mkResp StatusBadRequest (BError err)))
  | PublishEntry (BindOk message) => Some (PublishSending (mkEvent message now))
  | _ => None
  end.

(** The [c.JSON] that follows a completed send or receive. *)
Definition answer (t : thread) : option thread :=
  match t with
  | LongPollReceived event => Some (Finished (Delivered event))
  | PublishSent => Some (Finished Accepted)
  | _ => None
  end.

(** What can happen next: time passes; a request arrives; a handler runs
    up to its parking point; the send of publish [i] meets the receive of
    poll [j], which lets both goroutines go on, each to answer in a step of
    its own; a handler past its send or receive answers; the timer of poll
    [j] has fired and its [select] takes that case. *)
Inductive action :=
| Elapse (d : Z)
| Arrive (t : thread)
| Enter (i : nat)
| Handoff (i j : nat)
| Answer (i : nat)
| Expire (j : nat).

Definition exec1 (a : action) (c : Config) : option Config :=
  match a with
  | Elapse d =>
      if decide (0 ≤ d)%Z then Some (mkConfig (clock c + d) (pool c)) else None
  | Arrive t =>
      if is_entry t then Some (mkConfig (clock c) (pool c ++ [t])) else None
  | Enter i =>
      t ← pool c !! i;
      t' ← enter (clock c) t;
      Some (mkConfig (clock c) (<[i := t']> (pool c)))
  | Handoff i j =>
      s ← pool c !! i;
      r ← pool c !! j;
      match s, r with
      | PublishSending e, LongPollWaiting _ =>
          Some (mkConfig (clock c)
                  (<[j := LongPollReceived e]> (<[i := PublishSent]> (pool c))))
      | _, _ => None
      end
  | Answer i =>
      t ← pool c !! i;
      t' ← answer t;
      Some (mkConfig (clock c) (<[i := t']> (pool c)))
  | Expire j =>
      t ← pool c !! j;
      match t with
      | LongPollWaiting deadline =>
          if decide (deadline ≤ clock c)%Z
          then Some (mkConfig (clock c) (<[j := Finished NoNewEvents]> (pool c)))
          else None
      | _ => None
      end
  end.

Fixpoint exec (s : list action) (c : Config) : option Config :=
  match s with
  | [] => Some c
  | a :: s' => c' ← exec1 a c; exec s' c'
  end.

Definition reachable (c : Config) : Prop := ∃ s, exec s initial = Some c.

(** A publish answered 200, and a poll answered with an event. *)
Definition published (t : thread) : bool :=
  match t with
  | Finished (mkResp _ (BMessage m)) => bool_decide (m = "Event published.")
  | _ => false
  end.

Definition delivered (t : thread) : bool :=
  match t with
  | Finished (mkResp _ (BEvent _)) => true
  | _ => false
  end.

(** A publish whose send has completed, and a poll whose receive has
    completed, answered or not. *)
Definition sent (t : thread) : bool :=
  match t with
  | PublishSent => true
  | _ => published t
  end.

Definition received (t : thread) : bool :=
  match t with
  | LongPollReceived _ => true
  | _ => delivered t
  end.

(** A request of a poll, at any stage. *)
Definition is_poll (t : thread) : bool :=
  match t with
  | LongPollEntry | LongPollWaiting _ | LongPollReceived _ => true
  | Finished (mkResp _ (BEvent _)) => true
  | Finished (mkResp s BNil) => bool_decide (s = StatusNoContent)
  | _ => false
  end.

(** The goroutines of a run in which no poll has arrived. *)
Definition pollfree (t : thread) : Prop :=
  is_poll t = false ∧ sent t = false.

Fixpoint count (P : thread → bool) (l : list thread) : nat :=
  match l with
  | [] => 0
  | t :: l' => (if P t then 1 else 0) + count P l'
  end.

(** A publish arrives at 0s and reaches its send; an hour passes. *)
Definition lonelyPublish : list action :=
  [Arrive (PublishEntry (BindOk "hello")); Enter 0; Elapse (3600 * Second)].

(** Two polls park, one publish arrives and meets the second poll; the
    publish answers, the poll has not answered yet. *)
Definition twoPolls : list action :=
  [Arrive LongPollEntry; Enter 0; Arrive LongPollEntry; Enter 1;
   Elapse Second; Arrive (PublishEntry (BindOk "hello")); Enter 2;
   Handoff 2 1; Answer 2].

End SingleChannel.

(** * Vocabulary of the specification *)

(** ** Well-formed servers *)

(** What every state the server can be in satisfies: a pointer in the map
    refers to an object whose channel is open, two keys never share an
    object, and no channel holds more than its capacity. *)
Record wf (σ : Server) : Prop := mkWf {
  wf_live : ∀ k p, clientChannels σ !! k = Some p →
            ∃ cs, heap σ !! p = Some cs ∧ closed (Channel cs) = false;
  wf_inj : ∀ k1 k2 p, clientChannels σ !! k1 = Some p →
           clientChannels σ !! k2 = Some p → k1 = k2;
  wf_cap : ∀ p cs, heap σ !! p = Some cs →
           (length (buf (Channel cs)) ≤ mailboxCap)%nat
}.

(** The pointer a handler holds after it released the lock. *)
Definition held (t : thread) : option loc :=
  match t with
  | PollUnlocked _ p | PollWaiting _ p _ | PublishFound p _ => Some p
  | _ => None
  end.

(** Objects are never freed while the server runs. *)
Definition grows (σ σ' : Server) : Prop :=
  ∀ q, is_Some (heap σ !! q) → is_Some (heap σ' !! q).

(** ** The sweeper's pass *)

(** [time.Since(clientState.LastSeen) > clientTimeout] for the object at
    [p]. *)
Definition idle (now : Z) (h : gmap loc ClientState) (p : loc) : bool :=
  match h !! p with
  | Some cs => bool_decide (now - LastSeen cs > clientTimeout)%Z
  | None => false
  end.

(** The object an evicted entry leaves behind: same buffer, same
    [LastSeen], channel closed. *)
Definition released (cs : ClientState) : ClientState :=
  mkClient (mkChan (buf (Channel cs)) true) (LastSeen cs).

(** The clock reading a pass takes at its visit of a key. *)
Definition readingOf (visits : list (string * Z)) (clientId : string) : option Z :=
  (list_to_map visits : gmap string Z) !! clientId.

(** Whether a pass finds the entry of [clientId], which points to [p],
    idle at its visit. *)
Definition idleAt (visits : list (string * Z)) (h : gmap loc ClientState)
    (clientId : string) (p : loc) : bool :=
  match readingOf visits clientId with
  | Some now => idle now h p
  | None => false
  end.

(** Whether the visit [(clientId, now)] finds an idle entry in [σ]. *)
Definition visitIdle (σ : Server) (visit : string * Z) : bool :=
  match clientChannels σ !! visit.1 with
  | Some p => idle visit.2 (heap σ) p
  | None => false
  end.

(** The lines a pass writes for the keys it removes, in visiting order,
    starting from a map of [n] entries: for each key the "Cleaned up" line
    and then [len(clientChannels)] after the deletion. *)
Fixpoint cleanedLines (n : nat) (ks : list string) : list LogLine :=
  match ks with
  | [] => []
  | k :: ks' => LogCleaned k :: LogActive (pred n) :: cleanedLines (pred n) ks'
  end.

(** The keys a pass removes from [σ], in the order it visits them. *)
Definition cleaned (visits : list (string * Z)) (σ : Server) : list string :=
  (filter (λ visit, visitIdle σ visit = true) visits).*1.

(** What the loop computes from [σ] when it makes the visits [visits]. *)
Record swept (visits : list (string * Z)) (σ σ' : Server) : Prop := mkSwept {
  swept_wf : wf σ';
  swept_map : ∀ k, clientChannels σ' !! k =
      match clientChannels σ !! k with
      | Some p => if idleAt visits (heap σ) k p then None else Some p
      | None => None
      end;
  swept_heap : ∀ q, heap σ' !! q = heap σ !! q
      ∨ ∃ k cs, clientChannels σ !! k = Some q
                ∧ idleAt visits (heap σ) k q = true
                ∧ heap σ !! q = Some cs ∧ heap σ' !! q = Some (released cs);
  swept_released : ∀ k q, clientChannels σ !! k = Some q →
      idleAt visits (heap σ) k q = true →
      ∃ cs, heap σ !! q = Some cs ∧ heap σ' !! q = Some (released cs);
  swept_logs : logs σ' =
      logs σ ++ cleanedLines (size (clientChannels σ)) (cleaned visits σ);
  swept_size : (size (clientChannels σ') + length (cleaned visits σ)
                = size (clientChannels σ))%nat
}.

(** The numbers a pass writes out: [cleanUpInactiveClients] returns
    nothing, and the only count it computes is the [len(clientChannels)] of
    its "Active clients remaining" lines. *)
Definition reported (ls : list LogLine) : list nat :=
  omap (λ l, match l with LogActive n => Some n | _ => None end) ls.

(** ** Events in flight *)

(** The buffer of every channel ever created, and the events they hold. *)
Definition mailboxes (h : gmap loc ClientState) : gmap loc (list Event) :=
  (λ cs, buf (Channel cs)) <$> h.

(** The events held by a family of buffers, with multiplicity. *)
Definition content (m : gmap loc (list Event)) : gmultiset Event :=
  map_fold (λ _ b acc, list_to_set_disj b ⊎ acc) ∅ m.

(** The events deposited and not yet consumed. *)
Definition pending (σ : Server) : gmultiset Event := content (mailboxes (heap σ)).

(** The events publish has deposited, and those polls have consumed. *)
Definition deposits (o : list obs) : gmultiset Event :=
  list_to_set_disj (omap (λ x, match x with Deposited e => Some e | _ => None end) o).

Definition consumptions (o : list obs) : gmultiset Event :=
  list_to_set_disj (omap (λ x, match x with Consumed e => Some e | _ => None end) o).

(** ** Invariants of the running server *)

(** What holds of every reachable configuration: the server is
    well-formed, the pointers held by requests in flight refer to objects,
    and every deposited event is either consumed or still buffered. *)
Record inv (c : Config) : Prop := mkInv {
  inv_wf : wf (server c);
  inv_held : ∀ t p, t ∈ pool c → held t = Some p →
             is_Some (heap (server c) !! p);
  inv_events : deposits (history c)
               = consumptions (history c) ⊎ pending (server c)
}.

(** An object the map does not point to and no handler holds. *)
Definition unreachable (p : loc) (c : Config) : Prop :=
  is_Some (heap (server c) !! p)
  ∧ (∀ k, clientChannels (server c) !! k ≠ Some p)
  ∧ (∀ t, t ∈ pool c → held t ≠ Some p).

(** An object the map does not point to and no publish holds, whose
    channel is open and empty: only polls may still hold it. *)
Definition quiet (p : loc) (c : Config) : Prop :=
  (∃ cs, heap (server c) !! p = Some cs
         ∧ buf (Channel cs) = [] ∧ closed (Channel cs) = false)
  ∧ (∀ k, clientChannels (server c) !! k ≠ Some p)
  ∧ (∀ t m, t ∈ pool c → t ≠ PublishFound p m).

(** ** Last activity *)

(** The last-activity instant of the entry registered under a clientId. *)
Definition lastSeenOf (σ : Server) (clientId : string) : option Z :=
  p ← clientChannels σ !! clientId; LastSeen <$> heap σ !! p.

(** The steps of [publishHandler]. *)
Definition is_publish (t : thread) : bool :=
  match t with
  | PublishEntry _ _ | PublishFound _ _ => true
  | _ => false
  end.

(** The map is the same and every object has the [LastSeen] it had. *)
Definition sameLastSeen (σ σ' : Server) : Prop :=
  clientChannels σ' = clientChannels σ
  ∧ ∀ q, LastSeen <$> heap σ' !! q = LastSeen <$> heap σ !! q.

(** ** Clock readings *)

(** No object was last seen after [now] and no buffered event is stamped
    after [now]. *)
Definition stamped (now : Z) (σ : Server) : Prop :=
  ∀ p cs, heap σ !! p = Some cs →
    (LastSeen cs ≤ now)%Z ∧ Forall (λ e, (Time e ≤ now)%Z) (buf (Channel cs)).

(** The timer of every parked poll is due at most 30 seconds from now. *)
Definition armed (c : Config) : Prop :=
  ∀ j k p d, pool c !! j = Some (PollWaiting k p d) →
             (d ≤ clock c + pollTimeout)%Z.

(** ** Servers and schedules used as instances *)

(** Two servers used to instantiate the theorems: ["A"] has polled once at
    instant 0; and the same with an event published one second later. *)
Definition serverA : Server := (getOrCreate 0 "A" emptyServer).2.

Definition serverA_pending : Server :=
  mkServer (clientChannels serverA)
           (<[1%positive := mkClient (mkChan [mkEvent "first" Second] false) 0]>
              (heap serverA))
           (logs serverA).

(** Three clients last seen at 0s, 30s and 50s. *)
Definition server3 : Server :=
  (getOrCreate (50 * Second) "C" (getOrCreate (30 * Second) "B" serverA).2).2.

(** The visits of a pass that takes no time: the keys in the order
    [range] yields them, all at the instant [now]. *)
Definition passAt (now : Z) (order : list string) : list (string * Z) :=
  (λ clientId, (clientId, now)) <$> order.

(** The delays of a pass that takes no time. *)
Definition instantly (order : list string) : list (string * Z) :=
  (λ clientId, (clientId, 0%Z)) <$> order.

(** A client polls at 0s and times out; an event is published for it at
    59s and accepted; the sweeper's pass just after 60s finds the client
    idle. *)
Definition lostEvent : list action :=
  [Arrive (PollEntry "A"); Run 0 true; Run 0 true;
   Elapse (30 * Second); Run 0 true;
   Elapse (29 * Second);
   Arrive (PublishEntry "A" (BindOk "hi")); Run 1 true; Run 1 true;
   Elapse (Second + 1); Sweep [("A", 0%Z)]].

(** Where [lostEvent] leads. *)
Definition lostConfig : Config :=
  mkConfig
    (mkServer ∅
       {[ 1%positive := mkClient (mkChan [mkEvent "hi" (59 * Second)] true) 0 ]}
       [LogSubscribed "A"; LogPollTimeout "A"; LogCleaned "A"; LogActive 0])
    (60 * Second + 1)
    [Finished TimedOut; Finished Accepted]
    [Deposited (mkEvent "hi" (59 * Second))].

(** A poll for ["A"] takes the lock at 0s, is held up for 31s before it
    arms its timer (which will fire at 61s) and parks in [select]; nobody
    publishes; the sweeper's pass at 60.5s finds ["A"] idle. *)
Definition evictedWhileWaiting : list action :=
  [Arrive (PollEntry "A"); Run 0 true;
   Elapse (31 * Second); Run 0 true;
   Elapse (29 * Second + 500000000); Sweep [("A", 0%Z)]].

(** A poll for ["A"] parks at 0s on the object it creates; a publish for
    ["A"] looks the entry up; then a subscribe for ["A"] replaces the
    entry. *)
Definition racingPublish : list action :=
  [Arrive (PollEntry "A"); Run 0 true; Run 0 true;
   Arrive (PublishEntry "A" (BindOk "hi")); Run 1 true;
   Arrive (SubscribeEntry "A"); Run 2 true].

(** ["A"] subscribes and an event is published for it; a poll for ["A"]
    takes the lock and finds the entry; then a subscribe for ["A"] replaces
    the entry. *)
Definition racingPoll : list action :=
  [Arrive (SubscribeEntry "A"); Run 0 true;
   Arrive (PublishEntry "A" (BindOk "first")); Run 1 true; Run 1 true;
   Arrive (PollEntry "A"); Run 2 true;
   Arrive (SubscribeEntry "A"); Run 3 true].

(** ["A"] polls at 0s and parks; then a subscribe for ["A"] arrives. *)
Definition resubscribe : list action :=
  [Arrive (PollEntry "A"); Run 0 true; Run 0 true; Arrive (SubscribeEntry "A")].

(** Where [resubscribe] leads. *)
Definition resubscribeConfig : Config :=
  mkConfig serverA 0
           [PollWaiting "A" 1%positive (30 * Second); SubscribeEntry "A"] [].

(** * Invariants of the registry *)

Lemma wf_empty : wf emptyServer.
Proof. split; simpl; intros *; by rewrite lookup_empty. Qed.

Lemma alloc_spec cs h p h' :
  alloc cs h = (p, h') → h !! p = None ∧ h' = <[p := cs]> h.
Proof.
  unfold alloc. intros [= <- <-]. split; [|done].
  apply not_elem_of_dom, is_fresh.
Qed.

(** Settle a decidable statement about concrete data by computing. *)
Ltac decided := apply (bool_decide_unpack _); vm_compute; exact I.

(** Name the address and the freshness of the object a handler allocates. *)
Tactic Notation "fresh_object" ident(p) ident(Hp) :=
  let h := fresh "h" in
  let Ha := fresh "Ha" in
  destruct (alloc _ _) as [p h] eqn:Ha; apply alloc_spec in Ha as [Hp ->].

Lemma wf_insert_fresh σ clientId p now ls :
  wf σ → heap σ !! p = None →
  wf (mkServer (<[clientId := p]> (clientChannels σ))
               (<[p := mkClient make_chan now]> (heap σ)) ls).
Proof.
  intros [Hlive Hinj Hcap] Hp. split; simpl.
  - intros k q. rewrite lookup_insert. case_decide as Hk.
    + intros [= <-]. rewrite lookup_insert_eq. eauto.
    + intros Hq. destruct (Hlive _ _ Hq) as (cs & Hcs & Hopen).
      exists cs. rewrite lookup_insert_ne; [done | congruence].
  - intros k1 k2 q. rewrite !lookup_insert.
    repeat case_decide; subst; try done.
    + intros [= <-] Hq. destruct (Hlive _ _ Hq) as (? & ? & _). congruence.
    + intros Hq [= <-]. destruct (Hlive _ _ Hq) as (? & ? & _). congruence.
    + apply Hinj.
  - intros q cs. rewrite lookup_insert. case_decide.
    + intros [= <-]. simpl. unfold mailboxCap. lia.
    + apply Hcap.
Qed.

Lemma wf_subscribeHandler now clientId σ :
  wf σ → wf (subscribeHandler now clientId σ).2.
Proof.
  intros Hwf. unfold subscribeHandler.
  fresh_object p Hp.
  simpl. by apply wf_insert_fresh.
Qed.

(** Replacing the object at [p] by one with the same closed flag and a
    buffer within capacity keeps the invariant. *)
Lemma wf_update σ p cs c seen :
  wf σ → heap σ !! p = Some cs →
  closed c = closed (Channel cs) →
  (length (buf c) ≤ mailboxCap)%nat →
  wf (mkServer (clientChannels σ) (<[p := mkClient c seen]> (heap σ)) (logs σ)).
Proof.
  intros [Hlive Hinj Hcap] Hp Hcl Hlen. split; simpl.
  - intros k q Hq. destruct (Hlive _ _ Hq) as (cs' & Hcs' & Hopen).
    rewrite lookup_insert. case_decide; subst.
    + eexists; split; [done|]. simpl. congruence.
    + eauto.
  - apply Hinj.
  - intros q cs'. rewrite lookup_insert. case_decide.
    + intros [= <-]. done.
    + apply Hcap.
Qed.

Lemma wf_logs σ ls :
  wf σ → wf (mkServer (clientChannels σ) (heap σ) ls).
Proof. intros [? ? ?]. by split. Qed.

Lemma alter_lookup_Some {A} (f : A → A) (h : gmap loc A) p x :
  h !! p = Some x → alter f p h = <[p := f x]> h.
Proof.
  intros Hp. apply map_eq. intros q. rewrite lookup_alter, lookup_insert.
  case_decide; subst; [by rewrite Hp | done].
Qed.

Lemma wf_getOrCreate now clientId σ :
  wf σ → wf (getOrCreate now clientId σ).2.
Proof.
  intros Hwf. unfold getOrCreate.
  destruct (clientChannels σ !! clientId) as [p|] eqn:Hk.
  - destruct (wf_live _ Hwf _ _ Hk) as (cs & Hcs & Hopen). simpl.
    rewrite (alter_lookup_Some _ _ _ _ Hcs).
    apply (wf_update σ p cs); [done..|]. by eapply wf_cap.
  - fresh_object p Hp.
    simpl. by apply wf_insert_fresh.
Qed.

(** ** Receiving and sending through a pointer *)

Lemma mkClient_eta cs : mkClient (Channel cs) (LastSeen cs) = cs.
Proof. by destruct cs. Qed.

Lemma mkChan_eta c : mkChan (buf c) (closed c) = c.
Proof. by destruct c. Qed.

(** A receive that proceeds either takes the head of the buffer, or finds
    the channel closed and drained and leaves the store as it is. *)
Lemma recvFrom_Some p σ e ok σ' :
  recvFrom p σ = Some (e, ok, σ') →
  ∃ cs, heap σ !! p = Some cs ∧
    ((∃ rest, buf (Channel cs) = e :: rest ∧ ok = true ∧
       σ' = mkServer (clientChannels σ)
              (<[p := mkClient (mkChan rest (closed (Channel cs))) (LastSeen cs)]> (heap σ))
              (logs σ))
     ∨ (buf (Channel cs) = [] ∧ closed (Channel cs) = true ∧
        e = zeroEvent ∧ ok = false ∧ σ' = σ)).
Proof.
  unfold recvFrom. destruct (heap σ !! p) as [cs|] eqn:Hp; [|done]. simpl.
  unfold chan_try_recv.
  destruct (buf (Channel cs)) as [|e0 rest] eqn:Hb; simpl.
  - destruct (closed (Channel cs)) eqn:Hc; [|done]. simpl.
    intros [= <- <- <-]. exists cs. split; [done|]. right.
    repeat split; try done.
    rewrite mkClient_eta, insert_id by done. by destruct σ.
  - intros [= <- <- <-]. exists cs. split; [done|]. left. eauto.
Qed.

Lemma recvFrom_None p σ cs :
  heap σ !! p = Some cs →
  recvFrom p σ = None ↔ buf (Channel cs) = [] ∧ closed (Channel cs) = false.
Proof.
  intros Hp. unfold recvFrom, chan_try_recv. rewrite Hp. simpl.
  destruct (buf (Channel cs)); simpl; [|split; [done | by intros [? _]]].
  destruct (closed (Channel cs)); split; try done; by intros [_ ?].
Qed.

Lemma wf_recvFrom p σ e ok σ' :
  wf σ → recvFrom p σ = Some (e, ok, σ') → wf σ'.
Proof.
  intros Hwf Hr. apply recvFrom_Some in Hr as (cs & Hp & [(rest & Hb & _ & ->)|(_ & _ & _ & _ & ->)]);
    [|done].
  apply (wf_update σ p cs); [done..|]. simpl.
  pose proof (wf_cap _ Hwf _ _ Hp) as Hlen. rewrite Hb in Hlen. simpl in *. lia.
Qed.

Lemma wf_pollSelect now deadline pick clientId p σ o r σ' :
  wf σ → pollSelect now deadline pick clientId p σ = Some (o, r, σ') → wf σ'.
Proof.
  intros Hwf. unfold pollSelect.
  destruct (recvFrom p σ) as [[[e ok] σ1]|] eqn:Hr;
    destruct (bool_decide _); try destruct pick; intros [= <- <- <-];
    eauto using wf_recvFrom, wf_logs.
Qed.

(** What the non-blocking send does, case by case. *)
Lemma sendTo_Some now p message σ cs :
  heap σ !! p = Some cs →
  sendTo now p message σ =
    Some (if closed (Channel cs) then
            (PubPanic, mkResp StatusInternalServerError BNil, σ)
          else if decide (length (buf (Channel cs)) < mailboxCap)%nat then
            (PubSent (mkEvent message now), Accepted,
             mkServer (clientChannels σ)
               (<[p := mkClient (mkChan (buf (Channel cs) ++ [mkEvent message now]) false)
                                (LastSeen cs)]> (heap σ))
               (logs σ))
          else (PubFull, RejectedMailboxFull, σ)).
Proof.
  intros Hp. unfold sendTo, chan_try_send. rewrite Hp. simpl.
  destruct (closed (Channel cs)); [done|]. by case_decide.
Qed.

Lemma wf_sendTo now p message σ o r σ' :
  wf σ → sendTo now p message σ = Some (o, r, σ') → wf σ'.
Proof.
  intros Hwf. destruct (heap σ !! p) as [cs|] eqn:Hp.
  - rewrite (sendTo_Some _ _ _ _ _ Hp).
    destruct (closed (Channel cs)) eqn:Hc; [by intros [= <- <- <-]|].
    case_decide as Hlen; intros [= <- <- <-]; [|done].
    apply (wf_update σ p cs); [done..|].
    simpl. rewrite length_app. simpl. lia.
  - unfold sendTo. by rewrite Hp.
Qed.

(** ** The sweeper's pass *)

Section visit.

(** The clock reading of one visit. *)
Context (now : Z).

Lemma sweepEntry_idle σ k p cs :
  heap σ !! p = Some cs → closed (Channel cs) = false →
  idle now (heap σ) p = true →
  sweepEntry now σ (k, p) =
    Some (mkServer (delete k (clientChannels σ))
                   (<[p := released cs]> (heap σ))
                   (logs σ ++ [LogCleaned k; LogActive (size (delete k (clientChannels σ)))])).
Proof.
  unfold idle, sweepEntry, chan_close. intros -> Hopen Hidle. simpl.
  rewrite Hidle, Hopen. done.
Qed.

Lemma sweepEntry_active σ k p :
  is_Some (heap σ !! p) → idle now (heap σ) p = false →
  sweepEntry now σ (k, p) = Some σ.
Proof.
  unfold idle, sweepEntry. intros [cs ->] Hidle. simpl. by rewrite Hidle.
Qed.

Lemma wf_evict σ k p cs ls :
  wf σ → clientChannels σ !! k = Some p → heap σ !! p = Some cs →
  wf (mkServer (delete k (clientChannels σ)) (<[p := released cs]> (heap σ)) ls).
Proof.
  intros [Hlive Hinj Hcap] Hk Hp. split; simpl.
  - intros k' q. rewrite lookup_delete. case_decide; [done|]. intros Hq.
    destruct (Hlive _ _ Hq) as (cs' & Hcs' & Hopen).
    exists cs'. rewrite lookup_insert_ne; [done|].
    intros <-. by specialize (Hinj _ _ _ Hk Hq).
  - intros k1 k2 q. rewrite !lookup_delete. repeat case_decide; try done.
    apply Hinj.
  - intros q cs'. rewrite lookup_insert. case_decide.
    + intros [= <-]. simpl. by eapply Hcap.
    + apply Hcap.
Qed.

Lemma idle_insert_released h p cs q :
  h !! p = Some cs → idle now (<[p := released cs]> h) q = idle now h q.
Proof.
  intros Hp. unfold idle. rewrite lookup_insert. case_decide; [|done].
  subst. by rewrite Hp.
Qed.

End visit.

Lemma readingOf_cons k now visits k' :
  readingOf ((k, now) :: visits) k'
  = if decide (k = k') then Some now else readingOf visits k'.
Proof. unfold readingOf. simpl. by rewrite lookup_insert. Qed.

Lemma readingOf_None visits k : k ∉ visits.*1 → readingOf visits k = None.
Proof. apply not_elem_of_list_to_map_1. Qed.

(** Where [range] yields every key once, the reading of a key is the one
    of its visit. *)
Lemma idleAt_visit visits h k now p :
  NoDup visits.*1 → (k, now) ∈ visits → idleAt visits h k p = idle now h p.
Proof.
  intros Hnd Hin. unfold idleAt, readingOf.
  by rewrite (elem_of_list_to_map_1 visits k now Hnd Hin).
Qed.

Lemma ranges_visited visits σ k p :
  ranges visits σ → clientChannels σ !! k = Some p → ∃ now, (k, now) ∈ visits.
Proof.
  intros [_ Hdom] Hk.
  assert (k ∈ (list_to_set visits.*1 : gset string)) as Hin.
  { rewrite Hdom. apply elem_of_dom. eauto. }
  apply elem_of_list_to_set, list_elem_of_fmap in Hin as ([k' now] & -> & Hin).
  by exists now.
Qed.

Lemma readings_keys now delays : (readings now delays).*1 = delays.*1.
Proof.
  revert now. induction delays as [|[k d] delays IH]; intros now; [done|].
  simpl. by rewrite IH.
Qed.

Lemma elapsed_nonneg delays :
  Forall (λ kd, 0 ≤ kd.2)%Z delays → (0 ≤ elapsed delays)%Z.
Proof.
  induction 1 as [|[k d] delays Hd _ IH]; simpl in *; [done|].
  unfold elapsed in *. simpl. lia.
Qed.


Lemma ranges_readings now delays σ : ranges delays σ → ranges (readings now delays) σ.
Proof. unfold ranges. by rewrite readings_keys. Qed.

Lemma instantly_keys order : (instantly order).*1 = order.
Proof.
  unfold instantly. induction order as [|k order IH]; [done|].
  by rewrite !fmap_cons, IH.
Qed.

(** The keys of the map, in any order that lists each once, are visits
    [range] can make. *)
Lemma ranges_instantly σ :
  ranges (instantly (map_to_list (clientChannels σ)).*1) σ.
Proof.
  unfold ranges. rewrite instantly_keys.
  split; [apply NoDup_fst_map_to_list|].
  apply set_eq. intros k. rewrite elem_of_list_to_set, elem_of_dom, list_elem_of_fmap.
  split.
  - intros ([k' p] & -> & Hin%elem_of_map_to_list). eauto.
  - intros [p Hk]. exists (k, p). split; [done|]. by apply elem_of_map_to_list.
Qed.

Lemma filter_ext_elem_of {A} (P Q : A → Prop) `{!∀ x, Decision (P x)}
    `{!∀ x, Decision (Q x)} (l : list A) :
  (∀ x, x ∈ l → P x ↔ Q x) → filter P l = filter Q l.
Proof.
  induction l as [|x l IH]; intros Hext; [done|].
  rewrite !filter_cons. rewrite IH by (intros y Hy; apply Hext; by right).
  destruct (decide (P x)) as [HP|HP], (decide (Q x)) as [HQ|HQ]; try done.
  - destruct HQ. apply Hext; [left|done].
  - destruct HP. apply Hext; [left|done].
Qed.

Lemma swept_nil σ : wf σ → swept [] σ σ.
Proof.
  intros Hwf. split; [done|..].
  - intros k. by destruct (clientChannels σ !! k).
  - by left.
  - intros k q _. unfold idleAt, readingOf. simpl. by rewrite lookup_empty.
  - simpl. by rewrite app_nil_r.
  - simpl. lia.
Qed.

(** A visit that finds no idle entry adds nothing to what the rest of the
    pass does. *)
Lemma swept_skip k now visits σ σ' :
  visitIdle σ (k, now) = false → k ∉ visits.*1 →
  swept visits σ σ' → swept ((k, now) :: visits) σ σ'.
Proof.
  intros Hskip Hk [Hwf' Hmap Hheap Hrel Hlogs Hsize].
  assert (∀ k' p', clientChannels σ !! k' = Some p' →
            idleAt ((k, now) :: visits) (heap σ) k' p' = idleAt visits (heap σ) k' p')
    as Hsame.
  { intros k' p' Hk'. unfold idleAt. rewrite readingOf_cons.
    case_decide as Hkk; [|done]. subst k'.
    rewrite readingOf_None by done.
    unfold visitIdle in Hskip. simpl in Hskip. by rewrite Hk' in Hskip. }
  assert (cleaned ((k, now) :: visits) σ = cleaned visits σ) as Hfilter.
  { unfold cleaned. rewrite filter_cons_False; [done|]. congruence. }
  split; [done|..].
  - intros k'. rewrite Hmap.
    destruct (clientChannels σ !! k') as [p'|] eqn:Hk'; [|done].
    by rewrite Hsame.
  - intros q. destruct (Hheap q) as [?|(k' & cs & Hk' & Hi & Hq & Hq')]; [by left|].
    right. exists k', cs. by rewrite Hsame.
  - intros k' q Hk' Hi. rewrite Hsame in Hi by done. eauto.
  - by rewrite Hfilter.
  - by rewrite Hfilter.
Qed.

Lemma sweepLoop_swept visits σ :
  wf σ → NoDup visits.*1 →
  ∃ σ', sweepLoop visits σ = Some σ' ∧ swept visits σ σ'.
Proof.
  revert σ. induction visits as [|[k now] visits IH]; intros σ Hwf Hnd.
  { exists σ. split; [done|]. by apply swept_nil. }
  simpl in Hnd. apply list.NoDup_cons in Hnd as [Hk Hnd].
  destruct (clientChannels σ !! k) as [p|] eqn:Hkp; cycle 1.
  { (* the map does not have the key *)
    destruct (IH σ Hwf Hnd) as (σ' & Hloop & Hsw).
    exists σ'. split; [cbn [sweepLoop]; by rewrite Hkp|].
    apply swept_skip; [|done..]. unfold visitIdle. simpl. by rewrite Hkp. }
  destruct (wf_live _ Hwf _ _ Hkp) as (cs & Hp & Hopen).
  destruct (idle now (heap σ) p) eqn:Hidle; cycle 1.
  { (* the entry is active: nothing changes *)
    destruct (IH σ Hwf Hnd) as (σ' & Hloop & Hsw).
    exists σ'. split.
    { cbn [sweepLoop]. rewrite Hkp. by rewrite sweepEntry_active by eauto. }
    apply swept_skip; [|done..]. unfold visitIdle. simpl. by rewrite Hkp. }
  (* the entry is idle: deleted, logged, closed *)
  set (σ1 := mkServer (delete k (clientChannels σ)) (<[p := released cs]> (heap σ))
               (logs σ ++ [LogCleaned k; LogActive (size (delete k (clientChannels σ)))])).
  assert (wf σ1) as Hwf1 by by apply wf_evict.
  destruct (IH σ1 Hwf1 Hnd) as (σ' & Hloop & Hsw).
  exists σ'. split.
  { cbn [sweepLoop]. rewrite Hkp.
    by rewrite (sweepEntry_idle _ _ _ _ _ Hp Hopen Hidle). }
  destruct Hsw as [Hwf' Hmap Hheap Hrel Hlogs Hsize].
  pose proof (map_size_delete_Some k (clientChannels σ) (mk_is_Some _ _ Hkp)) as Hsz.
  assert (size (clientChannels σ) ≠ 0)%nat as Hpos.
  { intros Hz. apply map_size_empty_inv in Hz. rewrite Hz in Hkp.
    by rewrite lookup_empty in Hkp. }
  assert (∀ k' p', clientChannels σ !! k' = Some p' → k' ≠ k → p' ≠ p) as Hinj.
  { intros k' p' Hk' Hne ->. apply Hne. by eapply (wf_inj _ Hwf). }
  assert (∀ k' p', k' ≠ k →
            idleAt visits (heap σ1) k' p' = idleAt ((k, now) :: visits) (heap σ) k' p')
    as Hother.
  { intros k' p' Hne. unfold idleAt. rewrite readingOf_cons.
    rewrite decide_False by done. simpl.
    destruct (readingOf visits k'); [|done]. by apply idle_insert_released. }
  assert (idleAt ((k, now) :: visits) (heap σ) k p = true) as Hthis.
  { unfold idleAt. rewrite readingOf_cons. by rewrite decide_True. }
  assert (cleaned ((k, now) :: visits) σ = k :: cleaned visits σ1) as Hfilter.
  { unfold cleaned. rewrite filter_cons_True.
    2:{ unfold visitIdle. simpl. by rewrite Hkp. }
    simpl. f_equal. f_equal. apply filter_ext_elem_of. intros [k' t'] Hin.
    assert (k' ≠ k) as Hne.
    { intros ->. apply Hk. apply list_elem_of_fmap. by exists (k, t'). }
    unfold visitIdle. simpl. rewrite lookup_delete_ne by done.
    destruct (clientChannels σ !! k'); [|done].
    by rewrite idle_insert_released. }
  split; [done|..].
  - intros k'. rewrite Hmap. simpl. rewrite lookup_delete.
    case_decide as Hkk.
    + subst k'. by rewrite Hkp, Hthis.
    + destruct (clientChannels σ !! k') as [p'|] eqn:Hk'; [|done].
      by rewrite Hother.
  - intros q. destruct (Hheap q) as [Hsame|(k' & cs' & Hk' & Hi & Hq & Hq')].
    + simpl in Hsame. rewrite lookup_insert in Hsame. case_decide as Hqp.
      * subst q. right. exists k, cs. by rewrite Hsame.
      * by left.
    + simpl in Hk'. apply lookup_delete_Some in Hk' as [Hne Hk'].
      assert (q ≠ p) as Hqp by (eapply Hinj; eauto).
      simpl in Hq. rewrite lookup_insert_ne in Hq by done.
      right. exists k', cs'. rewrite <- Hother by done. done.
  - intros k' q Hk' Hi. destruct (decide (k' = k)) as [->|Hne].
    + assert (q = p) as -> by congruence. exists cs. split; [done|].
      destruct (Hheap p) as [Hsame|(k'' & cs' & Hk'' & _)].
      * rewrite Hsame. simpl. by rewrite lookup_insert_eq.
      * simpl in Hk''. apply lookup_delete_Some in Hk'' as [Hne Hk''].
        destruct Hne. by eapply (wf_inj _ Hwf).
    + destruct (Hrel k' q) as (cs' & Hq & Hq').
      * simpl. by rewrite lookup_delete_ne.
      * by rewrite Hother.
      * assert (q ≠ p) as Hqp by (eapply Hinj; eauto).
        simpl in Hq. rewrite lookup_insert_ne in Hq by done. eauto.
  - rewrite Hlogs, Hfilter. unfold σ1 at 1 2. cbn [logs clientChannels].
    rewrite <- app_assoc. simpl. by rewrite Hsz.
  - rewrite Hfilter.
    change (clientChannels σ1) with (delete k (clientChannels σ)) in Hsize.
    simpl. lia.
Qed.

Lemma sweep_swept visits σ :
  wf σ → NoDup visits.*1 →
  ∃ σ', cleanUpInactiveClients visits σ = Some σ' ∧ swept visits σ σ'.
Proof. apply sweepLoop_swept. Qed.

(** A pass only removes entries, and leaves alone every object the map
    does not point to and every object whose entry it keeps. *)
Lemma swept_registry visits σ σ' k p :
  swept visits σ σ' →
  clientChannels σ' !! k = Some p → clientChannels σ !! k = Some p.
Proof.
  intros Hsw. rewrite (swept_map _ _ _ Hsw).
  destruct (clientChannels σ !! k) as [q|]; [|done].
  by destruct (idleAt _ _ _ _).
Qed.

Lemma swept_outside visits σ σ' p :
  swept visits σ σ' →
  (∀ k, clientChannels σ !! k ≠ Some p) → heap σ' !! p = heap σ !! p.
Proof.
  intros Hsw Hout.
  destruct (swept_heap _ _ _ Hsw p) as [?|(k & _ & Hk & _)]; [done|].
  by destruct (Hout k).
Qed.

Lemma swept_kept visits σ σ' k p :
  wf σ → swept visits σ σ' →
  clientChannels σ !! k = Some p → idleAt visits (heap σ) k p = false →
  heap σ' !! p = heap σ !! p.
Proof.
  intros Hwf Hsw Hk Hi.
  destruct (swept_heap _ _ _ Hsw p) as [?|(k' & _ & Hk' & Hi' & _)]; [done|].
  assert (k' = k) as -> by by eapply (wf_inj _ Hwf). congruence.
Qed.

(** A pass changes no [LastSeen] and no buffer. *)
Lemma swept_object visits σ σ' q :
  swept visits σ σ' →
  heap σ' !! q = heap σ !! q
  ∨ ∃ cs, heap σ !! q = Some cs ∧ heap σ' !! q = Some (released cs).
Proof.
  intros Hsw. destruct (swept_heap _ _ _ Hsw q) as [?|(k & cs & _ & _ & ? & ?)];
    [by left|right; eauto].
Qed.

(** Where [range] visits every key, the entries a pass keeps are those it
    does not find idle at their visit. *)
Lemma swept_lookup visits σ σ' k p :
  wf σ → ranges visits σ → swept visits σ σ' →
  clientChannels σ' !! k = Some p ↔
  clientChannels σ !! k = Some p
  ∧ ∃ now, (k, now) ∈ visits ∧ idle now (heap σ) p = false.
Proof.
  intros Hwf Hr Hsw. rewrite (swept_map _ _ _ Hsw).
  destruct (clientChannels σ !! k) as [q|] eqn:Hk; [|by split; [|intros [? _]]].
  destruct (ranges_visited _ _ _ _ Hr Hk) as (now & Hin).
  rewrite (idleAt_visit _ _ _ now) by (done || apply Hr).
  destruct (idle now (heap σ) q) eqn:Hi.
  - split; [done|]. intros [[= <-] (now' & Hin' & Hi')].
    rewrite <- (idleAt_visit visits (heap σ) k now q) in Hi by (done || apply Hr).
    rewrite (idleAt_visit _ _ _ now') in Hi by (done || apply Hr). congruence.
  - split; [intros [= <-]; eauto|]. by intros [[= <-] _].
Qed.

(** The keys a pass removes are visited keys, in visiting order. *)
Lemma cleaned_sublist visits σ : cleaned visits σ `sublist_of` visits.*1.
Proof. unfold cleaned. apply fmap_sublist, sublist_filter. Qed.

Lemma elem_of_cleaned visits σ k :
  k ∈ cleaned visits σ ↔
  ∃ now p, (k, now) ∈ visits ∧ clientChannels σ !! k = Some p
           ∧ idle now (heap σ) p = true.
Proof.
  unfold cleaned. rewrite list_elem_of_fmap. split.
  - intros ([k' now] & -> & [Hi Hin]%list_elem_of_filter). simpl.
    unfold visitIdle in Hi. simpl in Hi.
    destruct (clientChannels σ !! k') as [p|]; [|done]. by exists now, p.
  - intros (now & p & Hin & Hk & Hi). exists (k, now). split; [done|].
    apply list_elem_of_filter. split; [|done].
    unfold visitIdle. simpl. by rewrite Hk.
Qed.

(** What a pass of the running server does. *)
Lemma exec1_Sweep delays c c' :
  exec1 (Sweep delays) c = Some c' →
  ∃ σ', Forall (λ kd, 0 ≤ kd.2)%Z delays
        ∧ ranges (readings (clock c) delays) (server c)
        ∧ cleanUpInactiveClients (readings (clock c) delays) (server c) = Some σ'
        ∧ c' = mkConfig σ' (clock c + elapsed delays) (pool c) (history c).
Proof.
  simpl. case_decide as Hd; [|done]. destruct Hd as [Hd Hr].
  destruct (cleanUpInactiveClients _ _) as [σ'|]; [|done]. simpl.
  intros [= <-]. exists σ'. split; [done|]. split; [|done].
  by apply ranges_readings.
Qed.

Lemma exec1_Sweep_swept delays c c' :
  wf (server c) → exec1 (Sweep delays) c = Some c' →
  ∃ σ', Forall (λ kd, 0 ≤ kd.2)%Z delays
        ∧ ranges (readings (clock c) delays) (server c)
        ∧ swept (readings (clock c) delays) (server c) σ'
        ∧ c' = mkConfig σ' (clock c + elapsed delays) (pool c) (history c).
Proof.
  intros Hwf (σ' & Hd & Hr & Hs & ->)%exec1_Sweep.
  destruct (sweep_swept _ _ Hwf (proj1 Hr)) as (σ1 & Hs1 & Hsw).
  assert (σ1 = σ') as -> by congruence. by exists σ'.
Qed.

(** ** Steps of a handler keep the invariant *)

Create HintDb registry.

#[local] Hint Resolve wf_empty wf_subscribeHandler wf_getOrCreate wf_recvFrom
  wf_pollSelect wf_sendTo wf_logs : registry.

Lemma wf_thread_step now pick t σ t' σ' o :
  wf σ → thread_step now pick t σ = Some (t', σ', o) → wf σ'.
Proof.
  intros Hwf. destruct t as [k|k|k p|k p d|k req|p m|r]; cbn [thread_step].
  - pose proof (wf_subscribeHandler now k σ Hwf) as Hs.
    destruct (subscribeHandler now k σ). by intros [= <- <- <-].
  - case_decide; [by intros [= <- <- <-]|].
    pose proof (wf_getOrCreate now k σ Hwf) as Hg.
    destruct (getOrCreate now k σ). by intros [= <- <- <-].
  - by intros [= <- <- <-].
  - destruct (pollSelect now d pick k p σ) as [[[o' r] σ1]|] eqn:Hs; [|done].
    simpl. intros [= <- <- <-]. eauto with registry.
  - case_decide; [by intros [= <- <- <-]|].
    destruct req; [by intros [= <- <- <-]|].
    destruct (lookup k σ); by intros [= <- <- <-].
  - destruct (sendTo now p m σ) as [[[o' r] σ1]|] eqn:Hs; [|done].
    simpl. intros [= <- <- <-]. eauto with registry.
  - done.
Qed.

Lemma grows_refl σ : grows σ σ.
Proof. by intros q. Qed.

Lemma grows_heap σ m ls : grows σ (mkServer m (heap σ) ls).
Proof. by intros q. Qed.

Lemma grows_insert σ m p cs ls : grows σ (mkServer m (<[p := cs]> (heap σ)) ls).
Proof.
  intros q Hq. simpl. rewrite lookup_insert. by case_decide.
Qed.

Lemma grows_getOrCreate now k σ : grows σ (getOrCreate now k σ).2.
Proof.
  unfold getOrCreate. destruct (clientChannels σ !! k).
  - intros q Hq. simpl. by apply lookup_alter_is_Some.
  - apply grows_insert.
Qed.

Lemma getOrCreate_held now k σ :
  wf σ → is_Some (heap (getOrCreate now k σ).2 !! (getOrCreate now k σ).1).
Proof.
  intros Hwf. unfold getOrCreate.
  destruct (clientChannels σ !! k) as [p|] eqn:Hk; simpl.
  - destruct (wf_live _ Hwf _ _ Hk) as (cs & Hp & _).
    apply lookup_alter_is_Some. eauto.
  - rewrite lookup_insert_eq. eauto.
Qed.

Lemma grows_recvFrom p σ e ok σ' : recvFrom p σ = Some (e, ok, σ') → grows σ σ'.
Proof.
  intros (cs & _ & [(rest & _ & _ & ->)|(_ & _ & _ & _ & ->)])%recvFrom_Some.
  - apply grows_insert.
  - apply grows_refl.
Qed.

Lemma grows_thread_step now pick t σ t' σ' o :
  thread_step now pick t σ = Some (t', σ', o) → grows σ σ'.
Proof.
  destruct t as [k|k|k p|k p d|k req|p m|r]; cbn [thread_step].
  - unfold subscribeHandler, alloc. intros [= <- <- <-]. apply grows_insert.
  - case_decide; [intros [= <- <- <-]; apply grows_refl|].
    pose proof (grows_getOrCreate now k σ) as Hg.
    destruct (getOrCreate now k σ). by intros [= <- <- <-].
  - intros [= <- <- <-]. apply grows_refl.
  - unfold pollSelect.
    destruct (recvFrom p σ) as [[[e ok] σ1]|] eqn:Hr;
      destruct (bool_decide _); try destruct pick; simpl; try done;
      intros [= <- <- <-]; eauto using grows_recvFrom, grows_heap.
  - case_decide; [intros [= <- <- <-]; apply grows_refl|].
    destruct req; [intros [= <- <- <-]; apply grows_refl|].
    destruct (lookup k σ); intros [= <- <- <-]; apply grows_refl.
  - unfold sendTo. destruct (heap σ !! p) as [cs|]; [|done]. simpl.
    destruct (chan_try_send _ _); intros [= <- <- <-];
      eauto using grows_insert, grows_refl.
  - done.
Qed.

Lemma held_thread_step now pick t σ t' σ' o p :
  wf σ → thread_step now pick t σ = Some (t', σ', o) →
  (∀ q, held t = Some q → is_Some (heap σ !! q)) →
  held t' = Some p → is_Some (heap σ' !! p).
Proof.
  intros Hwf Hstep Hheld.
  destruct t as [k|k|k q|k q d|k req|q m|r]; cbn [thread_step] in Hstep.
  - unfold subscribeHandler, alloc in Hstep. injection Hstep as <- <- <-. done.
  - case_decide; [by injection Hstep as <- <- <-|].
    pose proof (getOrCreate_held now k σ Hwf) as Hg.
    destruct (getOrCreate now k σ). injection Hstep as <- <- <-.
    simpl. by intros [= <-].
  - injection Hstep as <- <- <-. simpl. intros [= <-]. by apply Hheld.
  - destruct (pollSelect _ _ _ _ _ _) as [[[? ?] ?]|]; [|done].
    by injection Hstep as <- <- <-.
  - case_decide; [by injection Hstep as <- <- <-|].
    destruct req; [by injection Hstep as <- <- <-|].
    destruct (lookup k σ) as [p'|] eqn:Hl; injection Hstep as <- <- <-; [|done].
    simpl. intros [= <-]. destruct (wf_live _ Hwf _ _ Hl) as (cs & -> & _). eauto.
  - destruct (sendTo _ _ _ _) as [[[? ?] ?]|]; [|done].
    by injection Hstep as <- <- <-.
  - done.
Qed.

Lemma grows_swept visits σ σ' : swept visits σ σ' → grows σ σ'.
Proof.
  intros Hsw q Hq.
  destruct (swept_object _ _ _ q Hsw) as [->|(cs & _ & ->)]; eauto.
Qed.

(** ** Conservation of events *)

Lemma content_fold_comm (z1 z2 : list Event) (y : gmultiset Event) :
  list_to_set_disj z1 ⊎ (list_to_set_disj z2 ⊎ y)
  = list_to_set_disj z2 ⊎ (list_to_set_disj z1 ⊎ y).
Proof. multiset_solver. Qed.

Lemma content_insert_None m p b :
  m !! p = None → content (<[p := b]> m) = list_to_set_disj b ⊎ content m.
Proof.
  intros Hp. unfold content. rewrite map_fold_insert_L; [done| |done].
  intros. apply content_fold_comm.
Qed.

Lemma content_delete m p b :
  m !! p = Some b → content m = list_to_set_disj b ⊎ content (delete p m).
Proof.
  intros Hp. unfold content.
  rewrite (map_fold_delete_L _ _ p b m); [done| |done].
  intros. apply content_fold_comm.
Qed.

Lemma content_insert_Some m p b0 b :
  m !! p = Some b0 →
  content (<[p := b]> m) ⊎ list_to_set_disj b0 = content m ⊎ list_to_set_disj b.
Proof.
  intros Hp. rewrite (content_delete m p b0 Hp).
  rewrite <- (insert_delete_eq m p b).
  rewrite content_insert_None by apply lookup_delete_eq.
  multiset_solver.
Qed.

Lemma pending_insert_Some σ m p cs cs' ls :
  heap σ !! p = Some cs →
  pending (mkServer m (<[p := cs']> (heap σ)) ls) ⊎ list_to_set_disj (buf (Channel cs))
  = pending σ ⊎ list_to_set_disj (buf (Channel cs')).
Proof.
  intros Hp. unfold pending, mailboxes. simpl. rewrite fmap_insert.
  apply content_insert_Some. by rewrite lookup_fmap, Hp.
Qed.

Lemma pending_insert_None σ m p cs' ls :
  heap σ !! p = None →
  pending (mkServer m (<[p := cs']> (heap σ)) ls)
  = list_to_set_disj (buf (Channel cs')) ⊎ pending σ.
Proof.
  intros Hp. unfold pending, mailboxes. simpl. rewrite fmap_insert.
  apply content_insert_None. by rewrite lookup_fmap, Hp.
Qed.

(** States whose objects have the same buffers hold the same events. *)
Lemma pending_ext σ σ' :
  (∀ q, (λ cs, buf (Channel cs)) <$> heap σ' !! q
        = (λ cs, buf (Channel cs)) <$> heap σ !! q) →
  pending σ' = pending σ.
Proof.
  intros H. unfold pending, mailboxes. f_equal. apply map_eq. intros q.
  by rewrite !lookup_fmap.
Qed.

Lemma pending_subscribeHandler now k σ :
  pending (subscribeHandler now k σ).2 = pending σ.
Proof.
  unfold subscribeHandler. fresh_object p Hp. simpl.
  rewrite pending_insert_None by done. simpl. multiset_solver.
Qed.

Lemma pending_getOrCreate now k σ : pending (getOrCreate now k σ).2 = pending σ.
Proof.
  unfold getOrCreate. destruct (clientChannels σ !! k) as [p|].
  - apply pending_ext. intros q. simpl. rewrite lookup_alter.
    case_decide; [subst|done]. by destruct (heap σ !! q).
  - fresh_object p Hp. simpl.
    rewrite pending_insert_None by done. simpl. multiset_solver.
Qed.

Lemma pending_swept visits σ σ' : swept visits σ σ' → pending σ' = pending σ.
Proof.
  intros Hsw. apply pending_ext. intros q.
  by destruct (swept_object _ _ _ q Hsw) as [->|(cs & -> & ->)].
Qed.

(** Every step of a handler accounts for the events it moves. *)
Lemma pending_thread_step now pick t σ t' σ' o :
  thread_step now pick t σ = Some (t', σ', o) →
  pending σ' ⊎ consumptions o = pending σ ⊎ deposits o.
Proof.
  destruct t as [k|k|k p|k p d|k req|p m|r]; cbn [thread_step].
  - pose proof (pending_subscribeHandler now k σ) as Hs.
    destruct (subscribeHandler now k σ). intros [= <- <- <-]. simpl in Hs.
    rewrite Hs. done.
  - case_decide; [by intros [= <- <- <-]|].
    pose proof (pending_getOrCreate now k σ) as Hg.
    destruct (getOrCreate now k σ). intros [= <- <- <-]. simpl in Hg.
    rewrite Hg. done.
  - by intros [= <- <- <-].
  - destruct (pollSelect now d pick k p σ) as [[[o' r] σ1]|] eqn:Hs; [|done].
    simpl. intros [= <- <- <-]. unfold pollSelect in Hs.
    assert (∀ ls, pending (mkServer (clientChannels σ) (heap σ) ls) = pending σ)
      as Hlogs by done.
    destruct (recvFrom p σ) as [[[e ok] σ2]|] eqn:Hr.
    + apply recvFrom_Some in Hr
        as (cs & Hp & [(rest & Hb & -> & ->)|(_ & _ & _ & -> & ->)]).
      * pose proof (pending_insert_Some σ (clientChannels σ) p cs
          (mkClient (mkChan rest (closed (Channel cs))) (LastSeen cs)) (logs σ) Hp) as Hpend.
        rewrite Hb in Hpend. simpl in Hpend.
        destruct (bool_decide _); try destruct pick; injection Hs as <- <- <-;
          unfold consumptions, deposits; simpl; rewrite ?Hlogs; multiset_solver.
      * destruct (bool_decide _); try destruct pick; injection Hs as <- <- <-;
          rewrite ?Hlogs; done.
    + destruct (bool_decide _); [|done]. injection Hs as <- <- <-.
      by rewrite Hlogs.
  - case_decide; [by intros [= <- <- <-]|].
    destruct req; [by intros [= <- <- <-]|].
    destruct (lookup k σ); by intros [= <- <- <-].
  - destruct (heap σ !! p) as [cs|] eqn:Hp.
    + rewrite (sendTo_Some _ _ _ _ _ Hp). simpl.
      destruct (closed (Channel cs)); [by intros [= <- <- <-]|].
      case_decide; intros [= <- <- <-]; [|done].
      pose proof (pending_insert_Some σ (clientChannels σ) p cs
        (mkClient (mkChan (buf (Channel cs) ++ [mkEvent m now]) false) (LastSeen cs))
        (logs σ) Hp) as Hpend.
      simpl in Hpend. rewrite list_to_set_disj_app in Hpend.
      unfold consumptions, deposits. simpl. multiset_solver.
    + unfold sendTo. by rewrite Hp.
  - done.
Qed.

Lemma deposits_app o1 o2 : deposits (o1 ++ o2) = deposits o1 ⊎ deposits o2.
Proof. unfold deposits. by rewrite omap_app, list_to_set_disj_app. Qed.

Lemma consumptions_app o1 o2 :
  consumptions (o1 ++ o2) = consumptions o1 ⊎ consumptions o2.
Proof. unfold consumptions. by rewrite omap_app, list_to_set_disj_app. Qed.

(** ** Invariants of the running server *)

Lemma inv_initial : inv initial.
Proof.
  split; simpl.
  - apply wf_empty.
  - intros t p Hin. by apply elem_of_nil in Hin.
  - done.
Qed.

Lemma elem_of_insert_inv {A} (l : list A) i x y :
  y ∈ <[i := x]> l → y = x ∨ y ∈ l.
Proof.
  intros (j & Hj)%list_elem_of_lookup.
  destruct (decide (i = j)) as [->|Hne].
  - destruct (decide (j < length l)%nat).
    + rewrite list_lookup_insert_eq in Hj by done. left. congruence.
    + rewrite list_insert_ge in Hj by lia. right.
      by eapply list_elem_of_lookup_2.
  - rewrite list_lookup_insert_ne in Hj by done. right.
    by eapply list_elem_of_lookup_2.
Qed.

Lemma inv_exec1 a c c' : inv c → exec1 a c = Some c' → inv c'.
Proof.
  intros [Hwf Hheld Hev]. destruct a as [d|t|i pick|delays]; simpl.
  - case_decide; [|done]. intros [= <-]. by split.
  - destruct (is_entry t) eqn:Ht; [|done]. intros [= <-]. split; simpl; try done.
    intros t' p [Hin|Hin%list_elem_of_singleton]%elem_of_app; [by eauto|].
    subst. by destruct t.
  - destruct (pool c !! i) as [t|] eqn:Hi; [|done]. simpl.
    destruct (thread_step _ _ _ _) as [[[t' σ'] o]|] eqn:Hstep; [|done].
    simpl. intros [= <-].
    assert (t ∈ pool c) as Hin by by eapply list_elem_of_lookup_2.
    split; simpl.
    + eauto using wf_thread_step.
    + intros t0 p [->|Hin0]%elem_of_insert_inv Hp.
      * eapply held_thread_step; eauto.
      * eapply grows_thread_step; eauto.
    + rewrite deposits_app, consumptions_app, Hev.
      pose proof (pending_thread_step _ _ _ _ _ _ _ Hstep). multiset_solver.
  - case_decide as Hd; [|done]. destruct Hd as [_ Hr].
    destruct (sweep_swept (readings (clock c) delays) (server c) Hwf)
      as (σ' & Hs & Hsw); [apply (ranges_readings _ _ _ Hr)|].
    rewrite Hs. simpl. intros [= <-]. split; simpl.
    + by destruct Hsw.
    + intros t p Hin Hp. eapply grows_swept; eauto.
    + by rewrite (pending_swept _ _ _ Hsw).
Qed.

Lemma inv_exec s c c' : inv c → exec s c = Some c' → inv c'.
Proof.
  revert c. induction s as [|a s IH]; intros c Hinv; simpl.
  - by intros [= <-].
  - destruct (exec1 a c) as [c1|] eqn:H1; [|done]. simpl.
    apply IH. by eapply inv_exec1.
Qed.

Lemma inv_reachable c : reachable c → inv c.
Proof. intros [s Hs]. eapply inv_exec; [apply inv_initial|done]. Qed.

Lemma exec_app s1 s2 c :
  exec (s1 ++ s2) c = c' ← exec s1 c; exec s2 c'.
Proof.
  revert c. induction s1 as [|a s1 IH]; intros c; simpl; [done|].
  destruct (exec1 a c); simpl; [apply IH|done].
Qed.

Lemma reachable_step a c c' : reachable c → exec1 a c = Some c' → reachable c'.
Proof.
  intros [s Hs] Ha. exists (s ++ [a]). rewrite exec_app, Hs. simpl.
  by rewrite Ha.
Qed.

(** * Handlers run without interference *)

Lemma pollHandler_eq now wake pick clientId σ :
  clientId ≠ "" →
  pollHandler now wake pick clientId σ =
    '(o, r, σ') ← pollSelect wake (now + pollTimeout) pick clientId
                     (getOrCreate now clientId σ).1 (getOrCreate now clientId σ).2;
    Some (r, σ').
Proof.
  intros Hne. unfold pollHandler. cbn [thread_step].
  rewrite decide_False by done.
  destruct (getOrCreate now clientId σ) as [p σ1]. cbn.
  by destruct (pollSelect _ _ _ _ _ _) as [[[o r] σ3]|].
Qed.

Lemma publishHandler_found now clientId message σ p :
  clientId ≠ "" → clientChannels σ !! clientId = Some p →
  publishHandler now clientId (BindOk message) σ =
    '(o, r, σ') ← sendTo now p message σ; Some (r, σ').
Proof.
  intros Hne Hk. unfold publishHandler. cbn [thread_step].
  rewrite decide_False by done. unfold lookup. rewrite Hk. cbn.
  by destruct (sendTo _ _ _ _) as [[[o r] σ3]|].
Qed.

Lemma publishHandler_absent now clientId message σ :
  clientId ≠ "" → clientChannels σ !! clientId = None →
  publishHandler now clientId (BindOk message) σ = Some (RejectedNotFound, σ).
Proof.
  intros Hne Hk. unfold publishHandler. cbn [thread_step].
  rewrite decide_False by done. unfold lookup. by rewrite Hk.
Qed.

Lemma wf_publishHandler now clientId req σ r σ' :
  wf σ → publishHandler now clientId req σ = Some (r, σ') → wf σ'.
Proof.
  intros Hwf. unfold publishHandler.
  destruct (thread_step now true (PublishEntry clientId req) σ)
    as [[[t σ1] o]|] eqn:H1; [|done]. simpl.
  pose proof (wf_thread_step _ _ _ _ _ _ _ Hwf H1) as Hwf1.
  destruct t; try (destruct (thread_step now true _ σ1) as [[[t' σ2] o']|] eqn:H2;
    [|done]; simpl; pose proof (wf_thread_step _ _ _ _ _ _ _ Hwf1 H2);
    destruct t'; intros [= <- <-]; done).
  by intros [= <- <-].
Qed.

(** When the entry exists, the lock region of [pollHandler] returns its
    pointer and only refreshes [LastSeen]. *)
Lemma getOrCreate_existing now clientId σ p cs :
  clientChannels σ !! clientId = Some p → heap σ !! p = Some cs →
  getOrCreate now clientId σ =
    (p, mkServer (clientChannels σ)
                 (<[p := mkClient (Channel cs) now]> (heap σ)) (logs σ)).
Proof.
  intros Hk Hp. unfold getOrCreate. rewrite Hk.
  by rewrite (alter_lookup_Some _ _ _ _ Hp).
Qed.

Lemma getOrCreate_absent now clientId σ :
  clientChannels σ !! clientId = None →
  ∃ p, heap σ !! p = None ∧
    getOrCreate now clientId σ =
      (p, mkServer (<[clientId := p]> (clientChannels σ))
                   (<[p := mkClient make_chan now]> (heap σ))
                   (logs σ ++ [LogSubscribed clientId])).
Proof.
  intros Hk. unfold getOrCreate. rewrite Hk.
  fresh_object p Hp.
  by exists p.
Qed.

(** A poll that finds an event in the mailbox before its timer has fired
    returns it and leaves the rest of the buffer. *)
Lemma pollHandler_pending now wake pick clientId σ p cs e rest :
  clientId ≠ "" → (wake < now + pollTimeout)%Z →
  clientChannels σ !! clientId = Some p → heap σ !! p = Some cs →
  buf (Channel cs) = e :: rest →
  pollHandler now wake pick clientId σ =
    Some (Delivered e,
          mkServer (clientChannels σ)
            (<[p := mkClient (mkChan rest (closed (Channel cs))) now]> (heap σ))
            (logs σ)).
Proof.
  intros Hne Hwake Hk Hp Hb. rewrite pollHandler_eq by done.
  rewrite (getOrCreate_existing _ _ _ _ _ Hk Hp). cbn [fst snd].
  unfold pollSelect, recvFrom, chan_try_recv. cbn.
  rewrite lookup_insert_eq. cbn. rewrite Hb. cbn.
  rewrite bool_decide_eq_false_2 by lia. cbn.
  by rewrite insert_insert_eq.
Qed.

(** * Properties of publish and poll *)

Lemma wf_serverA : wf serverA.
Proof. unfold serverA. auto with registry. Qed.

Lemma wf_serverA_pending : wf serverA_pending.
Proof.
  apply (wf_publishHandler Second "A" (BindOk "first") serverA Accepted).
  - apply wf_serverA.
  - vm_compute. reflexivity.
Qed.

(** C1: a publish to a client whose mailbox already holds an unconsumed
    event returns [Rejected(MailboxFull)] (HTTP 503) at once; the server
    state, and so the pending event, is untouched and the new event is
    dropped; the next poll for that client delivers the original event and
    empties the mailbox. *)
Theorem C1_publish_to_full_mailbox now clientId message σ p cs e0 rest :
  wf σ → clientId ≠ "" →
  clientChannels σ !! clientId = Some p → heap σ !! p = Some cs →
  buf (Channel cs) = e0 :: rest →
  publishHandler now clientId (BindOk message) σ = Some (RejectedMailboxFull, σ)
  ∧ status RejectedMailboxFull = 503%nat
  ∧ ∀ now' wake pick, (wake < now' + pollTimeout)%Z →
      ∃ σ' cs', pollHandler now' wake pick clientId σ = Some (Delivered e0, σ')
                ∧ heap σ' !! p = Some cs' ∧ buf (Channel cs') = [].
Proof.
  intros Hwf Hne Hk Hp Hb.
  destruct (wf_live _ Hwf _ _ Hk) as (cs0 & Hp0 & Hopen).
  assert (cs0 = cs) as -> by congruence.
  pose proof (wf_cap _ Hwf _ _ Hp) as Hcap. rewrite Hb in Hcap.
  assert (rest = []) as -> by (destruct rest; [done|simpl in Hcap; unfold mailboxCap in Hcap; lia]).
  split; [|split; [done|]].
  - rewrite (publishHandler_found _ _ _ _ _ Hne Hk).
    rewrite (sendTo_Some _ _ _ _ _ Hp), Hopen, Hb. cbn.
    by rewrite decide_False by (unfold mailboxCap; simpl; lia).
  - intros now' wake pick Hwake.
    rewrite (pollHandler_pending _ _ _ _ _ _ _ _ _ Hne Hwake Hk Hp Hb).
    eexists _, _. split; [done|]. cbn. by rewrite lookup_insert_eq.
Qed.

(** C1 on [serverA_pending]: the second publish is rejected and the poll
    gets the first event. *)
Lemma C1_publish_to_full_mailbox_witness :
  publishHandler (2 * Second) "A" (BindOk "second") serverA_pending
    = Some (RejectedMailboxFull, serverA_pending)
  ∧ ∃ σ', pollHandler (3 * Second) (3 * Second) true "A" serverA_pending
          = Some (Delivered (mkEvent "first" Second), σ').
Proof.
  destruct (C1_publish_to_full_mailbox (2 * Second) "A" "second" serverA_pending
              1%positive (mkClient (mkChan [mkEvent "first" Second] false) 0)
              (mkEvent "first" Second) [])
    as (Hpub & _ & Hpoll).
  - apply wf_serverA_pending.
  - done.
  - vm_compute. reflexivity.
  - vm_compute. reflexivity.
  - reflexivity.
  - split; [exact Hpub|].
    destruct (Hpoll (3 * Second)%Z (3 * Second)%Z true) as (σ' & cs' & H & _).
    + vm_compute. reflexivity.
    + by exists σ'.
Defined.

(** C3: a publish to a clientId that has no registry entry returns
    [Rejected(NotFound)] (HTTP 404) and leaves the server, and so the
    registry, exactly as it was: no entry is created. *)
Theorem C3_publish_unknown_client now clientId message σ :
  clientId ≠ "" → clientChannels σ !! clientId = None →
  publishHandler now clientId (BindOk message) σ = Some (RejectedNotFound, σ)
  ∧ status RejectedNotFound = 404%nat.
Proof.
  intros Hne Hk. split; [|done]. by apply publishHandler_absent.
Qed.

(** C3 on [serverA], which has no entry for ["B"]. *)
Lemma C3_publish_unknown_client_witness :
  publishHandler Second "B" (BindOk "hello") serverA
    = Some (RejectedNotFound, serverA)
  ∧ status RejectedNotFound = 404%nat.
Proof.
  apply (C3_publish_unknown_client Second "B" "hello" serverA).
  - done.
  - vm_compute. reflexivity.
Defined.

(** C5: with an entry already present and its mailbox empty, a publish
    called at [called] and stamped at [now] is accepted, and the poll that
    follows returns [Delivered] with exactly the published message and the
    stamp of the publish, which is not before the call. *)
Theorem C5_publish_then_poll called now clientId message σ p cs :
  wf σ → clientId ≠ "" →
  clientChannels σ !! clientId = Some p → heap σ !! p = Some cs →
  buf (Channel cs) = [] → (called ≤ now)%Z →
  ∃ σ1, publishHandler now clientId (BindOk message) σ = Some (Accepted, σ1)
    ∧ ∀ now' wake pick, (wake < now' + pollTimeout)%Z →
        ∃ e σ2, pollHandler now' wake pick clientId σ1 = Some (Delivered e, σ2)
                ∧ e = mkEvent message now
                ∧ Message e = message ∧ (called ≤ Time e)%Z.
Proof.
  intros Hwf Hne Hk Hp Hb Hcall.
  destruct (wf_live _ Hwf _ _ Hk) as (cs0 & Hp0 & Hopen).
  assert (cs0 = cs) as -> by congruence.
  eexists. split.
  - rewrite (publishHandler_found _ _ _ _ _ Hne Hk).
    rewrite (sendTo_Some _ _ _ _ _ Hp), Hopen, Hb. cbn. done.
  - intros now' wake pick Hwake.
    eexists _, _. split; [|done].
    eapply pollHandler_pending; try done.
    + cbn. apply lookup_insert_eq.
    + done.
Qed.

(** C5 on [serverA]: publish at 1s, poll at 2s. *)
Lemma C5_publish_then_poll_witness :
  ∃ σ1 σ2,
    publishHandler Second "A" (BindOk "first") serverA = Some (Accepted, σ1)
    ∧ pollHandler (2 * Second) (2 * Second) true "A" σ1
      = Some (Delivered (mkEvent "first" Second), σ2).
Proof.
  destruct (C5_publish_then_poll 0 Second "A" "first" serverA 1%positive
              (mkClient make_chan 0))
    as (σ1 & Hpub & Hpoll).
  - apply wf_serverA.
  - done.
  - vm_compute. reflexivity.
  - vm_compute. reflexivity.
  - reflexivity.
  - vm_compute. discriminate.
  - destruct (Hpoll (2 * Second)%Z (2 * Second)%Z true) as (e & σ2 & H & -> & _).
    + vm_compute. reflexivity.
    + by exists σ1, σ2.
Defined.

(** * The lock region of poll *)

(** C2: the lookup-or-create step of poll is the single atomic step of a
    poll request under the lock.  If the entry exists, its [LastSeen]
    becomes [now], nothing else changes and its pointer is returned.  If it
    does not, one new object with an empty open mailbox and [LastSeen = now]
    is allocated and inserted under the clientId.  A second first-time poll
    for the same clientId, whenever it runs, finds the entry the first one
    made: the two polls hold the same pointer, the map got exactly one more
    key and the store exactly one more object.  The keys of the map are
    pairwise distinct. *)
Theorem C2_getOrCreate now clientId σ :
  wf σ → clientId ≠ "" →
  (∀ pick, thread_step now pick (PollEntry clientId) σ =
     Some (PollUnlocked clientId (getOrCreate now clientId σ).1,
           (getOrCreate now clientId σ).2, []))
  ∧ (∀ p, clientChannels σ !! clientId = Some p →
       ∃ cs, heap σ !! p = Some cs ∧
         getOrCreate now clientId σ =
           (p, mkServer (clientChannels σ)
                        (<[p := mkClient (Channel cs) now]> (heap σ)) (logs σ)))
  ∧ (clientChannels σ !! clientId = None →
       ∃ p, heap σ !! p = None ∧
         getOrCreate now clientId σ =
           (p, mkServer (<[clientId := p]> (clientChannels σ))
                        (<[p := mkClient (mkChan [] false) now]> (heap σ))
                        (logs σ ++ [LogSubscribed clientId]))
         ∧ ∀ now2, ∃ σ2,
             getOrCreate now2 clientId (getOrCreate now clientId σ).2 = (p, σ2)
             ∧ clientChannels σ2 = <[clientId := p]> (clientChannels σ)
             ∧ size (clientChannels σ2) = S (size (clientChannels σ))
             ∧ dom (heap σ2) = {[p]} ∪ dom (heap σ))
  ∧ NoDup (map_to_list (clientChannels (getOrCreate now clientId σ).2)).*1.
Proof.
  intros Hwf Hne. split; [|split; [|split]].
  - intros pick. cbn [thread_step]. rewrite decide_False by done.
    by destruct (getOrCreate now clientId σ).
  - intros p Hk. destruct (wf_live _ Hwf _ _ Hk) as (cs & Hp & _).
    exists cs. split; [done|]. by apply getOrCreate_existing.
  - intros Hk. destruct (getOrCreate_absent now _ _ Hk) as (p & Hp & Hg).
    exists p. split; [done|]. split; [done|]. intros now2.
    rewrite Hg. cbn [snd]. eexists. split.
    + apply getOrCreate_existing; cbn; apply lookup_insert_eq.
    + cbn. split; [done|]. split; [by apply map_size_insert_None|].
      rewrite insert_insert_eq. by rewrite dom_insert_L.
  - apply NoDup_fst_map_to_list.
Qed.

(** C2 on the empty server: two first-time polls for ["A"]. *)
Lemma C2_getOrCreate_witness :
  ∃ p σ2, getOrCreate 0 "A" emptyServer = (p, serverA)
          ∧ getOrCreate Second "A" serverA = (p, σ2)
          ∧ size (clientChannels σ2) = 1%nat.
Proof.
  destruct (C2_getOrCreate 0 "A" emptyServer) as (_ & _ & Hnew & _).
  - apply wf_empty.
  - done.
  - destruct Hnew as (p & _ & Hg & Htwice); [reflexivity|].
    destruct (Htwice Second) as (σ2 & H2 & _ & Hsize & _).
    exists p, σ2. split; [|split].
    + unfold serverA. by rewrite Hg.
    + exact H2.
    + exact Hsize.
Defined.

(** * The outcomes of poll *)

(** A poll request past the clientId check arms its timer 30 seconds
    after the reading of the clock and, once the timer has fired, does
    return.  When it returns, the response is [Delivered e] for some event
    or [TimedOut], and these differ.  As long as its mailbox has not been
    closed: [Delivered e] means that [e] was the head of the mailbox and is
    removed from it by this step; [TimedOut] happens only once the timer
    has fired and leaves the registry and every mailbox untouched. *)
Lemma poll_outcomes_open_mailbox now deadline pick clientId p σ :
  (∀ now0 σ0, thread_step now0 pick (PollUnlocked clientId p) σ0 =
     Some (PollWaiting clientId p (now0 + 30 * Second), σ0, []))
  ∧ ((deadline ≤ now)%Z →
     is_Some (thread_step now pick (PollWaiting clientId p deadline) σ))
  ∧ (∀ t σ' o,
      thread_step now pick (PollWaiting clientId p deadline) σ = Some (t, σ', o) →
      (∃ e, t = Finished (Delivered e)) ∨ t = Finished TimedOut)
  ∧ (∀ cs, heap σ !! p = Some cs → closed (Channel cs) = false →
     ∀ t σ' o,
      thread_step now pick (PollWaiting clientId p deadline) σ = Some (t, σ', o) →
      (∃ e rest, t = Finished (Delivered e) ∧ o = [Consumed e]
         ∧ buf (Channel cs) = e :: rest
         ∧ clientChannels σ' = clientChannels σ
         ∧ heap σ' = <[p := mkClient (mkChan rest false) (LastSeen cs)]> (heap σ))
      ∨ (t = Finished TimedOut ∧ o = [] ∧ (deadline ≤ now)%Z
         ∧ clientChannels σ' = clientChannels σ ∧ heap σ' = heap σ))
  ∧ (∀ e, Delivered e ≠ TimedOut).
Proof.
  split; [done|]. split; [|split; [|split; [|done]]].
  - intros Hd. cbn [thread_step]. unfold pollSelect.
    rewrite bool_decide_eq_true_2 by done.
    destruct (recvFrom p σ) as [[[e ok] σ1]|]; [destruct pick|]; cbn; eauto.
  - intros t σ' o. cbn [thread_step]. unfold pollSelect.
    destruct (recvFrom p σ) as [[[e ok] σ1]|];
      destruct (bool_decide _); try destruct pick; cbn; try done;
      intros [= <- <- <-]; eauto.
  - intros cs Hp Hopen t σ' o. cbn [thread_step]. unfold pollSelect.
    destruct (recvFrom p σ) as [[[e ok] σ1]|] eqn:Hr.
    + apply recvFrom_Some in Hr
        as (cs0 & Hp0 & [(rest & Hb & -> & ->)|(_ & Hcl & _)]);
        assert (cs0 = cs) as -> by congruence; [|congruence].
      rewrite Hopen.
      case_bool_decide as Hd; [destruct pick|]; cbn; intros [= <- <- <-];
        first [left; by exists e, rest | right; done].
    + case_bool_decide as Hd; cbn; [|done]. intros [= <- <- <-]. by right.
Qed.

(** C4, what the code does: the poll for ["A"] of [evictedWhileWaiting]
    arrives, takes the lock, arms its timer for 61s and parks; its entry is
    evicted at 60.5s, with no event ever published.  The poll then returns
    before its 30 seconds are over, and what it returns is [Delivered] with
    the zero-valued event: no event was in its mailbox and none is removed
    from it, no event is consumed, and the server is left exactly as it
    was.  So the call ends in neither of the two outcomes: it is not the
    delivery of a deposited event, and it is not [TimedOut]. *)
Theorem C4_poll_answers_without_event pick :
  ∃ c c', exec evictedWhileWaiting initial = Some c
    ∧ pool c = [PollWaiting "A" 1%positive (31 * Second + pollTimeout)]
    ∧ heap (server c) !! 1%positive = Some (mkClient (mkChan [] true) 0)
    ∧ deposits (history c) = ∅
    ∧ exec1 (Run 0 pick) c = Some c'
    ∧ pool c' = [Finished (Delivered zeroEvent)]
    ∧ Delivered zeroEvent ≠ TimedOut
    ∧ history c' = []
    ∧ server c' = server c
    ∧ (clock c' < 31 * Second + pollTimeout)%Z.
Proof.
  eexists _, _. split; [vm_compute; reflexivity|].
  split; [vm_compute; reflexivity|]. split; [vm_compute; reflexivity|].
  split; [done|].
  split; [destruct pick; vm_compute; reflexivity|].
  split; [vm_compute; reflexivity|]. split; [done|].
  split; [vm_compute; reflexivity|]. split; [vm_compute; reflexivity|].
  vm_compute. reflexivity.
Qed.

(** * The eviction sweep *)

Lemma idle_true now h p :
  idle now h p = true ↔
  ∃ cs, h !! p = Some cs ∧ (now - LastSeen cs > clientTimeout)%Z.
Proof.
  unfold idle. destruct (h !! p) as [cs|].
  - rewrite bool_decide_eq_true. split; [by eauto|].
    by intros (cs' & [= <-] & H).
  - split; [done|]. by intros (cs & ? & _).
Qed.

Lemma idle_false now h p cs :
  h !! p = Some cs →
  idle now h p = false ↔ ¬ (now - LastSeen cs > clientTimeout)%Z.
Proof. unfold idle. intros ->. by rewrite bool_decide_eq_false. Qed.

Lemma wf_server3 : wf server3.
Proof. unfold server3, serverA. auto with registry. Qed.

(** C6, as stated, fails: a pass at 70s over [server3] removes one entry
    (the one last seen at 0s), and the only number the pass produces is 2,
    the count of the entries that remain. *)
Lemma C6_counterexample :
  ∃ σ', cleanUpInactiveClients (passAt (70 * Second) ["A"; "B"; "C"]) server3
        = Some σ'
        ∧ (size (clientChannels server3) - size (clientChannels σ') = 1)%nat
        ∧ reported (drop (length (logs server3)) (logs σ')) = [2%nat]
        ∧ 1%nat ∉ reported (drop (length (logs server3)) (logs σ')).
Proof.
  eexists. split; [vm_compute; reflexivity|].
  split; [vm_compute; reflexivity|].
  split; [vm_compute; reflexivity|].
  vm_compute. intros H. by apply list_elem_of_singleton in H.
Qed.

(** C6, amended: a pass of the sweeper runs as one step under the lock and
    does not panic, in whatever order [range] yields the keys and whatever
    the clock reads at each visit.  The entries it keeps are exactly those
    with [now - LastSeen ≤ clientTimeout] at the reading [now] of their
    visit; every entry with [now - LastSeen > clientTimeout] is removed
    from the map and its channel is closed, buffer and [LastSeen] as they
    were; the objects of the entries that stay are unchanged.  The pass
    returns no count: for each removed key, in the order the keys were
    visited, it logs the key and the number of entries left after that
    removal; the removed keys are the keys the map had and no longer has,
    and their number is the difference of the map sizes. *)
Theorem C6_sweep_evicts_idle visits σ :
  wf σ → ranges visits σ →
  ∃ σ', cleanUpInactiveClients visits σ = Some σ'
    ∧ (∀ k p, clientChannels σ' !! k = Some p ↔
         clientChannels σ !! k = Some p
         ∧ ∃ cs now, heap σ !! p = Some cs ∧ (k, now) ∈ visits
                     ∧ ¬ (now - LastSeen cs > clientTimeout)%Z)
    ∧ (∀ k p cs now, clientChannels σ !! k = Some p → heap σ !! p = Some cs →
         (k, now) ∈ visits → (now - LastSeen cs > clientTimeout)%Z →
         clientChannels σ' !! k = None
         ∧ heap σ' !! p
           = Some (mkClient (mkChan (buf (Channel cs)) true) (LastSeen cs)))
    ∧ (∀ k p, clientChannels σ' !! k = Some p → heap σ' !! p = heap σ !! p)
    ∧ (∃ removed,
         logs σ' = logs σ ++ cleanedLines (size (clientChannels σ)) removed
         ∧ removed `sublist_of` visits.*1
         ∧ (∀ k, k ∈ removed ↔
              is_Some (clientChannels σ !! k) ∧ clientChannels σ' !! k = None)
         ∧ (size (clientChannels σ') + length removed
            = size (clientChannels σ))%nat).
Proof.
  intros Hwf Hr. destruct (sweep_swept visits σ Hwf (proj1 Hr)) as (σ' & Hs & Hsw).
  exists σ'. split; [done|].
  pose proof (λ k p, swept_lookup visits σ σ' k p Hwf Hr Hsw) as Hmap.
  assert (∀ k p now, clientChannels σ !! k = Some p → (k, now) ∈ visits →
            idle now (heap σ) p = true → clientChannels σ' !! k = None) as Hgone.
  { intros k p now Hk Hin Hi. rewrite (swept_map _ _ _ Hsw), Hk.
    rewrite (idleAt_visit _ _ _ now) by (done || apply Hr). by rewrite Hi. }
  split; [|split; [|split; [|exists (cleaned visits σ); split; [|split; [|split]]]]].
  - intros k p. rewrite Hmap. split.
    + intros [Hk (now & Hin & Hi)]. split; [done|].
      destruct (wf_live _ Hwf _ _ Hk) as (cs & Hp & _). exists cs, now.
      split; [done|]. split; [done|]. by apply (idle_false now _ _ _ Hp).
    + intros [Hk (cs & now & Hp & Hin & Hi)]. split; [done|].
      exists now. split; [done|]. by apply (idle_false now _ _ _ Hp).
  - intros k p cs now Hk Hp Hin Hi.
    assert (idle now (heap σ) p = true) as Hidle by (apply idle_true; eauto).
    split; [by eapply Hgone|].
    destruct (swept_released _ _ _ Hsw k p Hk) as (cs' & Hp' & ->).
    { rewrite (idleAt_visit _ _ _ now) by (done || apply Hr). done. }
    by assert (cs' = cs) as -> by congruence.
  - intros k p [Hk (now & Hin & Hi)]%Hmap.
    apply (swept_kept _ _ _ k p Hwf Hsw Hk).
    by rewrite (idleAt_visit _ _ _ now) by (done || apply Hr).
  - apply (swept_logs _ _ _ Hsw).
  - apply cleaned_sublist.
  - intros k. rewrite elem_of_cleaned. split.
    + intros (now & p & Hin & Hk & Hi). split; [eauto|]. by eapply Hgone.
    + intros [[p Hk] Hk']. destruct (ranges_visited _ _ _ _ Hr Hk) as (now & Hin).
      exists now, p. split; [done|]. split; [done|].
      destruct (idle now (heap σ) p) eqn:Hi; [done|].
      assert (clientChannels σ' !! k = Some p) as Hkept by (apply Hmap; eauto).
      congruence.
  - apply (swept_size _ _ _ Hsw).
Qed.

(** C6, amended, on [server3] at 70s, visiting ["B"] first: ["A"] goes,
    ["B"] stays. *)
Lemma C6_sweep_evicts_idle_witness :
  ∃ σ', cleanUpInactiveClients (passAt (70 * Second) ["B"; "C"; "A"]) server3
        = Some σ'
        ∧ clientChannels σ' !! "A" = None
        ∧ clientChannels σ' !! "B" = clientChannels server3 !! "B".
Proof.
  destruct (C6_sweep_evicts_idle (passAt (70 * Second) ["B"; "C"; "A"]) server3
              wf_server3 ltac:(decided))
    as (σ' & Hs & Hmap & Hrel & _).
  exists σ'. split; [exact Hs|]. split.
  - refine (proj1 (Hrel "A" 1%positive (mkClient make_chan 0) (70 * Second)%Z _ _ _ _)).
    + vm_compute; reflexivity.
    + vm_compute; reflexivity.
    + decided.
    + vm_compute; reflexivity.
  - replace (clientChannels server3 !! "B") with (Some 2%positive)
      by (vm_compute; reflexivity).
    apply Hmap. split; [vm_compute; reflexivity|].
    exists (mkClient make_chan (30 * Second)), (70 * Second)%Z.
    split; [vm_compute; reflexivity|].
    split; [decided|]. vm_compute. intros H. discriminate H.
Defined.

(** * Objects outside the registry *)

(** A step of a handler that does not hold [p], while the map does not
    point to [p]: the object at [p] is not touched, the map still does not
    point to it, and the handler does not get hold of it. *)
Lemma thread_step_frame now pick t σ t' σ' o p :
  wf σ → is_Some (heap σ !! p) →
  (∀ k, clientChannels σ !! k ≠ Some p) →
  held t ≠ Some p →
  thread_step now pick t σ = Some (t', σ', o) →
  heap σ' !! p = heap σ !! p
  ∧ (∀ k, clientChannels σ' !! k ≠ Some p)
  ∧ held t' ≠ Some p.
Proof.
  intros Hwf Hp Hout Hheld.
  destruct t as [k|k|k q|k q d|k req|q m|r]; cbn [thread_step].
  - unfold subscribeHandler. fresh_object p' Hp'. intros [= <- <- <-]. cbn.
    assert (p' ≠ p) as Hne by (intros ->; rewrite Hp' in Hp; by destruct Hp).
    split; [by rewrite lookup_insert_ne|]. split; [|done].
    intros k'. rewrite lookup_insert. case_decide; [congruence|apply Hout].
  - case_decide; [intros [= <- <- <-]; by split|].
    destruct (clientChannels σ !! k) as [q|] eqn:Hk.
    + destruct (wf_live _ Hwf _ _ Hk) as (cs & Hq & _).
      rewrite (getOrCreate_existing _ _ _ _ _ Hk Hq). intros [= <- <- <-]. cbn.
      assert (q ≠ p) as Hne by (intros ->; by apply (Hout k)).
      split; [by rewrite lookup_insert_ne|]. split; [done|congruence].
    + destruct (getOrCreate_absent now _ _ Hk) as (p' & Hp' & ->).
      intros [= <- <- <-]. cbn.
      assert (p' ≠ p) as Hne by (intros ->; rewrite Hp' in Hp; by destruct Hp).
      split; [by rewrite lookup_insert_ne|]. split; [|congruence].
      intros k'. rewrite lookup_insert. case_decide; [congruence|apply Hout].
  - intros [= <- <- <-]. split; [done|]. split; [done|]. simpl in *. congruence.
  - assert (q ≠ p) as Hne by (simpl in Hheld; congruence).
    unfold pollSelect.
    destruct (recvFrom q σ) as [[[e ok] σ1]|] eqn:Hr.
    + apply recvFrom_Some in Hr
        as (cs & Hq & [(rest & Hb & -> & ->)|(_ & _ & _ & -> & ->)]);
        destruct (bool_decide _); try destruct pick; cbn; intros [= <- <- <-];
        cbn; rewrite ?lookup_insert_ne by done; done.
    + destruct (bool_decide _); cbn; [|done]. by intros [= <- <- <-].
  - case_decide; [intros [= <- <- <-]; by split|].
    destruct req; [intros [= <- <- <-]; by split|].
    destruct (lookup k σ) as [q|] eqn:Hl; intros [= <- <- <-];
      (split; [done|]; split; [done|]); [|done].
    simpl. intros [= ->]. by apply (Hout k).
  - assert (q ≠ p) as Hne by (simpl in Hheld; congruence).
    destruct (heap σ !! q) as [cs|] eqn:Hq.
    + rewrite (sendTo_Some _ _ _ _ _ Hq). cbn.
      destruct (closed (Channel cs)); [intros [= <- <- <-]; by split|].
      case_decide; intros [= <- <- <-]; cbn;
        rewrite ?lookup_insert_ne by done; done.
    + unfold sendTo. by rewrite Hq.
  - done.
Qed.

Lemma unreachable_exec1 a c c' p :
  inv c → unreachable p c → exec1 a c = Some c' →
  unreachable p c' ∧ heap (server c') !! p = heap (server c) !! p.
Proof.
  intros [Hwf Hheld _] (Hp & Hout & Hpool). destruct a as [d|t|i pick|delays]; simpl.
  - case_decide; [|done]. by intros [= <-].
  - destruct (is_entry t) eqn:Ht; [|done]. intros [= <-]. split; [|done].
    unfold unreachable. simpl. split; [done|]. split; [done|].
    intros t' [Hin|Hin%list_elem_of_singleton]%elem_of_app; [by apply Hpool|].
    subst. by destruct t.
  - destruct (pool c !! i) as [t|] eqn:Hi; [|done]. simpl.
    destruct (thread_step _ _ _ _) as [[[t' σ'] o]|] eqn:Hstep; [|done].
    simpl. intros [= <-]. simpl.
    assert (t ∈ pool c) as Hin by by eapply list_elem_of_lookup_2.
    destruct (thread_step_frame _ _ _ _ _ _ _ p Hwf Hp Hout (Hpool _ Hin) Hstep)
      as (Hsame & Hout' & Hheld').
    split; [|done]. unfold unreachable. simpl.
    split; [by rewrite Hsame|]. split; [done|].
    intros t0 [->|Hin0]%elem_of_insert_inv; [done|by apply Hpool].
  - intros Hs.
    apply (exec1_Sweep_swept delays c c' Hwf) in Hs as (σ' & _ & _ & Hsw & ->).
    simpl. pose proof (swept_outside _ _ _ _ Hsw Hout) as Hsame.
    split; [|done]. unfold unreachable. simpl.
    split; [by rewrite Hsame|]. split; [|done].
    intros k Hk. apply (Hout k). by eapply swept_registry.
Qed.

(** An unreachable object stays as it is for the rest of the run. *)
Lemma unreachable_exec s c c' p :
  inv c → unreachable p c → exec s c = Some c' →
  unreachable p c' ∧ heap (server c') !! p = heap (server c) !! p.
Proof.
  revert c. induction s as [|a s IH]; intros c Hinv Hun; simpl.
  - by intros [= <-].
  - destruct (exec1 a c) as [c1|] eqn:H1; [|done]. simpl. intros Hs.
    destruct (unreachable_exec1 _ _ _ _ Hinv Hun H1) as [Hun1 Heq1].
    destruct (IH c1 (inv_exec1 _ _ _ Hinv H1) Hun1 Hs) as [Hun' Heq'].
    split; [done|congruence].
Qed.


(** * Conservation and loss of events *)


(** The other order of a publish racing with eviction: a publish that
    looked the entry up before the pass and sends after it finds the
    channel closed; the send panics and the request ends in a 500, with
    nothing deposited. *)
Lemma sendTo_released now p message σ cs :
  heap σ !! p = Some cs → closed (Channel cs) = true →
  sendTo now p message σ
  = Some (PubPanic, mkResp StatusInternalServerError BNil, σ).
Proof.
  intros Hp Hc. by rewrite (sendTo_Some _ _ _ _ _ Hp), Hc.
Qed.




(** * Who changes LastSeen *)

Lemma sameLastSeen_refl σ : sameLastSeen σ σ.
Proof. by split. Qed.

Lemma sameLastSeen_logs σ ls :
  sameLastSeen σ (mkServer (clientChannels σ) (heap σ) ls).
Proof. by split. Qed.

Lemma sameLastSeen_update σ p cs c ls :
  heap σ !! p = Some cs →
  sameLastSeen σ (mkServer (clientChannels σ)
                           (<[p := mkClient c (LastSeen cs)]> (heap σ)) ls).
Proof.
  intros Hp. split; [done|]. intros q. simpl. rewrite lookup_insert.
  case_decide; [subst; by rewrite Hp|done].
Qed.

Lemma sameLastSeen_lastSeenOf σ σ' k :
  sameLastSeen σ σ' → lastSeenOf σ' k = lastSeenOf σ k.
Proof.
  intros [Hm Hh]. unfold lastSeenOf. rewrite Hm.
  destruct (clientChannels σ !! k); [apply Hh|done].
Qed.

Lemma sameLastSeen_pollSelect now d pick k p σ o r σ' :
  pollSelect now d pick k p σ = Some (o, r, σ') → sameLastSeen σ σ'.
Proof.
  unfold pollSelect. destruct (recvFrom p σ) as [[[e ok] σ1]|] eqn:Hr.
  - apply recvFrom_Some in Hr
      as (cs & Hp & [(rest & Hb & -> & ->)|(_ & _ & _ & -> & ->)]);
      destruct (bool_decide _); try destruct pick; intros [= <- <- <-];
      eauto using sameLastSeen_update, sameLastSeen_logs, sameLastSeen_refl.
  - destruct (bool_decide _); [|done]. intros [= <- <- <-].
    apply sameLastSeen_logs.
Qed.

Lemma sameLastSeen_sendTo now p m σ o r σ' :
  sendTo now p m σ = Some (o, r, σ') → sameLastSeen σ σ'.
Proof.
  destruct (heap σ !! p) as [cs|] eqn:Hp.
  - rewrite (sendTo_Some _ _ _ _ _ Hp).
    destruct (closed (Channel cs)); [intros [= <- <- <-]; apply sameLastSeen_refl|].
    case_decide; intros [= <- <- <-];
      eauto using sameLastSeen_update, sameLastSeen_refl.
  - unfold sendTo. by rewrite Hp.
Qed.

(** Every step of publish leaves the map and all [LastSeen] alone. *)
Lemma sameLastSeen_publish now pick t σ t' σ' o :
  is_publish t = true →
  thread_step now pick t σ = Some (t', σ', o) → sameLastSeen σ σ'.
Proof.
  destruct t as [k|k|k q|k q d|k req|q m|r]; try done; intros _;
    cbn [thread_step].
  - case_decide; [intros [= <- <- <-]; apply sameLastSeen_refl|].
    destruct req; [intros [= <- <- <-]; apply sameLastSeen_refl|].
    destruct (lookup k σ); intros [= <- <- <-]; apply sameLastSeen_refl.
  - destruct (sendTo now q m σ) as [[[o' r] σ1]|] eqn:Hs; [|done].
    cbn. intros [= <- <- <-]. eauto using sameLastSeen_sendTo.
Qed.

(** Creating a fresh object under [k0] changes the last-activity instant
    of [k0] only. *)
Lemma lastSeenOf_insert_fresh σ k0 p now ls k :
  wf σ → heap σ !! p = None →
  lastSeenOf (mkServer (<[k0 := p]> (clientChannels σ))
                       (<[p := mkClient make_chan now]> (heap σ)) ls) k
  = if decide (k0 = k) then Some now else lastSeenOf σ k.
Proof.
  intros Hwf Hp. unfold lastSeenOf. simpl. rewrite lookup_insert.
  case_decide; simpl.
  - by rewrite lookup_insert_eq.
  - destruct (clientChannels σ !! k) as [q|] eqn:Hk; [|done]. simpl.
    destruct (wf_live _ Hwf _ _ Hk) as (cs & Hq & _).
    rewrite lookup_insert_ne; [done|]. congruence.
Qed.

(** A step of a handler that changes the last-activity instant of [k] is
    the lock region of a poll for [k] or a subscribe for [k], and sets it
    to the clock reading. *)
Lemma thread_step_lastSeenOf now pick t σ t' σ' o k :
  wf σ → thread_step now pick t σ = Some (t', σ', o) →
  lastSeenOf σ' k ≠ lastSeenOf σ k →
  (t = PollEntry k ∨ t = SubscribeEntry k) ∧ lastSeenOf σ' k = Some now.
Proof.
  intros Hwf. destruct (is_publish t) eqn:Hpub.
  { intros Hstep Hne. exfalso. apply Hne.
    eapply sameLastSeen_lastSeenOf, sameLastSeen_publish; eauto. }
  destruct t as [k0|k0|k0 q|k0 q d|k0 req|q m|r]; try done; cbn [thread_step].
  - unfold subscribeHandler. fresh_object p Hp. intros [= <- <- <-].
    rewrite lastSeenOf_insert_fresh by done.
    case_decide; [subst; by eauto|done].
  - case_decide; [by intros [= <- <- <-]|].
    destruct (clientChannels σ !! k0) as [p|] eqn:Hk0.
    + destruct (wf_live _ Hwf _ _ Hk0) as (cs & Hp & _).
      rewrite (getOrCreate_existing _ _ _ _ _ Hk0 Hp). intros [= <- <- <-].
      unfold lastSeenOf. simpl.
      destruct (decide (k0 = k)) as [->|Hne].
      * rewrite Hk0. simpl. rewrite lookup_insert_eq. by eauto.
      * destruct (clientChannels σ !! k) as [p'|] eqn:Hk; [|done]. simpl.
        rewrite lookup_insert_ne; [done|].
        intros ->. apply Hne. by eapply (wf_inj _ Hwf).
    + destruct (getOrCreate_absent now _ _ Hk0) as (p & Hp & ->).
      intros [= <- <- <-]. rewrite lastSeenOf_insert_fresh by done.
      case_decide; [subst; by eauto|done].
  - by intros [= <- <- <-].
  - destruct (pollSelect now d pick k0 q σ) as [[[o' r] σ1]|] eqn:Hs; [|done].
    cbn. intros [= <- <- <-] Hne. exfalso. apply Hne.
    eauto using sameLastSeen_lastSeenOf, sameLastSeen_pollSelect.
Qed.

(** The sweeper removes entries; it never changes a [LastSeen]. *)
Lemma sweep_lastSeenOf visits σ σ' k :
  wf σ → cleanUpInactiveClients visits σ = Some σ' →
  lastSeenOf σ' k = lastSeenOf σ k ∨ lastSeenOf σ' k = None.
Proof.
  unfold cleanUpInactiveClients. revert σ.
  induction visits as [|[k0 now] visits IH]; intros σ Hwf; cbn [sweepLoop].
  { intros [= <-]. by left. }
  destruct (clientChannels σ !! k0) as [p|] eqn:Hk0; [|by apply IH].
  destruct (wf_live _ Hwf _ _ Hk0) as (cs & Hp & Hopen).
  destruct (idle now (heap σ) p) eqn:Hidle.
  - rewrite (sweepEntry_idle _ _ _ _ _ Hp Hopen Hidle). cbn. intros Hs.
    apply IH in Hs; [|by apply wf_evict].
    destruct Hs as [Hs|Hs]; [|by right]. rewrite Hs.
    unfold lastSeenOf. simpl. rewrite lookup_delete. case_decide; [by right|].
    left. destruct (clientChannels σ !! k) as [q|] eqn:Hk; [|done]. simpl.
    rewrite lookup_insert_ne; [done|].
    intros ->. by assert (k0 = k) by by eapply (wf_inj _ Hwf).
  - rewrite sweepEntry_active by eauto. cbn. by apply IH.
Qed.

Lemma publish_step_enabled now pick t σ :
  is_publish t = true →
  (∀ p, held t = Some p → is_Some (heap σ !! p)) →
  is_Some (thread_step now pick t σ).
Proof.
  destruct t as [k|k|k q|k q d|k req|q m|r]; try done; intros _ Hheld;
    cbn [thread_step].
  - case_decide; [by eexists|]. destruct req; [by eexists|].
    destruct (lookup k σ); by eexists.
  - destruct (Hheld q eq_refl) as [cs Hq].
    rewrite (sendTo_Some _ _ _ _ _ Hq).
    destruct (closed (Channel cs)); [by eexists|]. case_decide; by eexists.
Qed.

Lemma sameLastSeen_publishHandler now clientId req σ :
  wf σ →
  ∃ r σ', publishHandler now clientId req σ = Some (r, σ') ∧ sameLastSeen σ σ'.
Proof.
  intros Hwf. unfold publishHandler. cbn [thread_step].
  case_decide; [eexists _, _; split; [done|apply sameLastSeen_refl]|].
  destruct req as [err|m]; [eexists _, _; split; [done|apply sameLastSeen_refl]|].
  destruct (lookup clientId σ) as [p|] eqn:Hl;
    [|eexists _, _; split; [done|apply sameLastSeen_refl]].
  cbn. destruct (wf_live _ Hwf _ _ Hl) as (cs & Hp & _).
  destruct (sendTo now p m σ) as [[[o r] σ1]|] eqn:Hs.
  - cbn. eexists _, _. split; [done|]. eauto using sameLastSeen_sendTo.
  - rewrite (sendTo_Some _ _ _ _ _ Hp) in Hs. done.
Qed.

(** C8: publish never touches [LastSeen].  Run on its own, [publishHandler]
    always returns a response (it does not block), whatever the request, and
    leaves the map and the [LastSeen] of every object, and so of every entry,
    as they were, whether the event was accepted or not.  The same holds for
    each single step of a publish interleaved with other requests, and such
    a step can always be taken.  A step of a handler that changes the
    last-activity instant of an entry is the lock region of a poll, or a
    subscribe, for that clientId, and sets it to the clock reading; the
    sweeper removes entries and changes no [LastSeen], whatever its
    visits. *)
Theorem C8_publish_keeps_lastSeen now clientId req σ :
  wf σ →
  (∃ r σ', publishHandler now clientId req σ = Some (r, σ')
     ∧ clientChannels σ' = clientChannels σ
     ∧ (∀ q, LastSeen <$> heap σ' !! q = LastSeen <$> heap σ !! q)
     ∧ ∀ k, lastSeenOf σ' k = lastSeenOf σ k)
  ∧ (∀ pick t t' σ' o, is_publish t = true →
       thread_step now pick t σ = Some (t', σ', o) →
       clientChannels σ' = clientChannels σ
       ∧ (∀ q, LastSeen <$> heap σ' !! q = LastSeen <$> heap σ !! q)
       ∧ ∀ k, lastSeenOf σ' k = lastSeenOf σ k)
  ∧ (∀ pick t, is_publish t = true →
       (∀ p, held t = Some p → is_Some (heap σ !! p)) →
       is_Some (thread_step now pick t σ))
  ∧ (∀ pick t t' σ' o k,
       thread_step now pick t σ = Some (t', σ', o) →
       lastSeenOf σ' k ≠ lastSeenOf σ k →
       (t = PollEntry k ∨ t = SubscribeEntry k) ∧ lastSeenOf σ' k = Some now)
  ∧ (∀ visits σ' k, cleanUpInactiveClients visits σ = Some σ' →
       lastSeenOf σ' k = lastSeenOf σ k ∨ lastSeenOf σ' k = None).
Proof.
  intros Hwf. split; [|split; [|split; [|split]]].
  - destruct (sameLastSeen_publishHandler now clientId req σ Hwf)
      as (r & σ' & Hpub & Hsame).
    exists r, σ'. split; [done|]. destruct Hsame as [Hm Hh].
    split; [done|]. split; [done|].
    intros k. by apply sameLastSeen_lastSeenOf.
  - intros pick t t' σ' o Ht Hstep.
    pose proof (sameLastSeen_publish _ _ _ _ _ _ _ Ht Hstep) as Hsame.
    destruct Hsame as [Hm Hh]. split; [done|]. split; [done|].
    intros k. by apply sameLastSeen_lastSeenOf.
  - intros pick t. apply publish_step_enabled.
  - intros pick t t' σ' o k. by apply thread_step_lastSeenOf.
  - intros visits σ' k. by apply sweep_lastSeenOf.
Qed.

(** C8 on [serverA]: an accepted publish at 5s leaves [LastSeen] at 0. *)
Lemma C8_publish_keeps_lastSeen_witness :
  ∃ σ', publishHandler (5 * Second) "A" (BindOk "hi") serverA = Some (Accepted, σ')
        ∧ lastSeenOf σ' "A" = Some 0%Z.
Proof.
  destruct (C8_publish_keeps_lastSeen (5 * Second) "A" (BindOk "hi") serverA
              wf_serverA) as ((r & σ' & Hpub & _ & _ & Hseen) & _).
  exists σ'. split.
  - rewrite Hpub. vm_compute in Hpub. by injection Hpub as <- _.
  - rewrite Hseen. vm_compute. reflexivity.
Defined.

(** * Eviction of an entry a poll is waiting on *)

(** The [select] of a poll on a closed, drained channel does not park: the
    receive case is ready and yields the zero event, which the handler
    sends as a 200; before the timer fires this is the only outcome. *)
Lemma pollSelect_closed now d pick k p σ cs :
  heap σ !! p = Some cs → buf (Channel cs) = [] → closed (Channel cs) = true →
  (now < d)%Z →
  pollSelect now d pick k p σ
  = Some (SelEvent zeroEvent false, Delivered zeroEvent, σ).
Proof.
  intros Hp Hb Hc Hd. unfold pollSelect, recvFrom, chan_try_recv.
  rewrite Hp. cbn. rewrite Hb, Hc. cbn.
  rewrite bool_decide_eq_false_2 by lia.
  rewrite mkClient_eta, insert_id by done. by destruct σ.
Qed.

(** C7, what the code does: after [evictedWhileWaiting] the poll is still
    parked, its timer has not fired, and its channel has been closed by the
    sweeper.  The poll is unblocked at once, whatever the [select] picks,
    but it answers 200 with the zero-valued event as if an event had been
    delivered, although none was ever published; it answers neither 204
    nor anything that says the client was evicted. *)
Theorem C7_evicted_poll_reports_event pick :
  ∃ c c', exec evictedWhileWaiting initial = Some c
    ∧ pool c = [PollWaiting "A" 1%positive (61 * Second)]
    ∧ (clock c < 61 * Second)%Z
    ∧ clientChannels (server c) !! "A" = None
    ∧ history c = []
    ∧ exec1 (Run 0 pick) c = Some c'
    ∧ pool c' = [Finished (mkResp 200 (BEvent (mkEvent "" 0)))]
    ∧ pool c' ≠ [Finished TimedOut].
Proof.
  eexists _, _. split; [vm_compute; reflexivity|].
  split; [vm_compute; reflexivity|]. split; [vm_compute; reflexivity|].
  split; [vm_compute; reflexivity|]. split; [vm_compute; reflexivity|].
  split; [destruct pick; vm_compute; reflexivity|].
  split; [vm_compute; reflexivity|]. vm_compute. discriminate.
Qed.

(** * Re-subscription *)

(** The [select] of a poll on an open, empty channel can only time out,
    and only once the timer has fired. *)
Lemma pollSelect_empty now d pick k p σ cs :
  heap σ !! p = Some cs → buf (Channel cs) = [] → closed (Channel cs) = false →
  pollSelect now d pick k p σ =
    if bool_decide (d ≤ now)%Z
    then Some (SelTimeout, TimedOut,
               mkServer (clientChannels σ) (heap σ) (logs σ ++ [LogPollTimeout k]))
    else None.
Proof.
  intros Hp Hb Hc. unfold pollSelect.
  by rewrite (proj2 (recvFrom_None p σ cs Hp) (conj Hb Hc)).
Qed.

Lemma quiet_exec1 a c c' p :
  inv c → quiet p c → exec1 a c = Some c' →
  quiet p c' ∧ heap (server c') !! p = heap (server c) !! p.
Proof.
  intros [Hwf Hheld _] ((cs & Hp & Hb & Hc) & Hout & Hpool).
  destruct a as [d|t|i pick|delays]; simpl.
  - case_decide; [|done]. intros [= <-]. split; [|done].
    unfold quiet. simpl. eauto 10.
  - destruct (is_entry t) eqn:Ht; [|done]. intros [= <-]. split; [|done].
    unfold quiet. simpl. split; [by eauto|]. split; [done|].
    intros t' m [Hin|Hin%list_elem_of_singleton]%elem_of_app; [by apply Hpool|].
    subst. by destruct t.
  - destruct (pool c !! i) as [t|] eqn:Hi; [|done]. simpl.
    destruct (thread_step _ _ _ _) as [[[t' σ'] o]|] eqn:Hstep; [|done].
    simpl. intros [= <-]. unfold quiet. simpl.
    assert (t ∈ pool c) as Hin by by eapply list_elem_of_lookup_2.
    assert (heap σ' !! p = heap (server c) !! p
            ∧ (∀ k, clientChannels σ' !! k ≠ Some p)
            ∧ ∀ m, t' ≠ PublishFound p m) as (Hsame & Hout' & Ht').
    { destruct (decide (held t = Some p)) as [Hh|Hh].
      - destruct t as [k|k|k q|k q d|k req|q m|r]; try done;
          injection Hh as ->; cbn [thread_step] in Hstep.
        + by injection Hstep as <- <- <-.
        + rewrite (pollSelect_empty _ _ _ _ _ _ _ Hp Hb Hc) in Hstep.
          destruct (bool_decide _); [|done]. by injection Hstep as <- <- <-.
        + by destruct (Hpool _ m Hin).
      - destruct (thread_step_frame _ _ _ _ _ _ _ p Hwf (mk_is_Some _ _ Hp)
                    Hout Hh Hstep) as (? & ? & Hh').
        split; [done|]. split; [done|]. intros m ->. by apply Hh'. }
    split; [|done]. split; [rewrite Hsame; by eauto|]. split; [done|].
    intros t0 m [->|Hin0]%elem_of_insert_inv; [done|by apply Hpool].
  - intros Hs.
    apply (exec1_Sweep_swept delays c c' Hwf) in Hs as (σ' & _ & _ & Hsw & ->).
    unfold quiet. simpl.
    pose proof (swept_outside _ _ _ _ Hsw Hout) as Hsame.
    split; [|done]. split; [rewrite Hsame; by eauto|]. split; [|done].
    intros k Hk. apply (Hout k). by eapply swept_registry.
Qed.

Lemma quiet_exec s c c' p :
  inv c → quiet p c → exec s c = Some c' →
  quiet p c' ∧ heap (server c') !! p = heap (server c) !! p.
Proof.
  revert c. induction s as [|a s IH]; intros c Hinv Hq; simpl.
  - by intros [= <-].
  - destruct (exec1 a c) as [c1|] eqn:H1; [|done]. simpl. intros Hs.
    destruct (quiet_exec1 _ _ _ _ Hinv Hq H1) as [Hq1 Heq1].
    destruct (IH c1 (inv_exec1 _ _ _ Hinv H1) Hq1 Hs) as [Hq' Heq'].
    split; [done|congruence].
Qed.

(** A poll parked on a quiet object finishes only by timing out, not before
    its timer fires, and does finish once it has fired. *)
Lemma quiet_poll c p j k d pick :
  quiet p c → pool c !! j = Some (PollWaiting k p d) →
  ((d ≤ clock c)%Z → is_Some (exec1 (Run j pick) c))
  ∧ ∀ c', exec1 (Run j pick) c = Some c' →
      pool c' !! j = Some (Finished TimedOut) ∧ (d ≤ clock c)%Z.
Proof.
  intros ((cs & Hp & Hb & Hc) & _ & _) Hj. simpl. rewrite Hj. simpl.
  rewrite (pollSelect_empty _ _ _ _ _ _ _ Hp Hb Hc).
  case_bool_decide as Hd; simpl.
  - split; [by eexists|]. intros c' [= <-]. simpl. split; [|done].
    apply list_lookup_insert_eq. by eapply lookup_lt_Some.
  - split; [done|]. by intros c'.
Qed.

(** What the step of [subscribeHandler] does to a server that has an entry
    for the clientId. *)
Lemma subscribeHandler_existing now clientId σ p :
  wf σ → clientChannels σ !! clientId = Some p →
  ∃ p', heap σ !! p' = None ∧ p' ≠ p
    ∧ subscribeHandler now clientId σ =
        (mkResp 200 (BClientId clientId),
         mkServer (<[clientId := p']> (clientChannels σ))
                  (<[p' := mkClient (mkChan [] false) now]> (heap σ))
                  (logs σ ++ [LogSubscribed clientId]))
    ∧ ∀ k, <[clientId := p']> (clientChannels σ) !! k ≠ Some p.
Proof.
  intros Hwf Hk. unfold subscribeHandler.
  fresh_object p' Hp'.
  destruct (wf_live _ Hwf _ _ Hk) as (cs & Hp & _).
  assert (p' ≠ p) as Hne by congruence.
  exists p'. split; [done|]. split; [done|]. split; [done|].
  intros k. rewrite lookup_insert. case_decide; [congruence|].
  intros Hk'. by pose proof (wf_inj _ Hwf _ _ _ Hk Hk').
Qed.

(** C10, amended: a subscribe for a clientId that has an entry replaces
    the entry, whatever its state: the map now points to a new object with
    an empty open mailbox and [LastSeen] set to the clock reading, and the
    old object is left exactly as it was (neither closed nor emptied) with
    no key pointing to it.  If no request in flight holds the old object, it
    is unreachable from then on and never changes again, so an event pending
    in it is never delivered.  If the old mailbox is empty and no publish in
    flight holds it, it stays empty and open whatever requests arrive and
    whatever the sweeper does, so a poll waiting on it can finish only by
    timing out, not before its timer fires, and does finish once it has. *)
Theorem C10_subscribe_replaces c i clientId p cs pick :
  inv c → pool c !! i = Some (SubscribeEntry clientId) →
  clientChannels (server c) !! clientId = Some p →
  heap (server c) !! p = Some cs →
  ∃ c1 p',
    exec1 (Run i pick) c = Some c1
    ∧ pool c1 = <[i := Finished (mkResp 200 (BClientId clientId))]> (pool c)
    ∧ heap (server c) !! p' = None
    ∧ clientChannels (server c1) = <[clientId := p']> (clientChannels (server c))
    ∧ heap (server c1)
      = <[p' := mkClient (mkChan [] false) (clock c)]> (heap (server c))
    ∧ heap (server c1) !! p = Some cs
    ∧ (∀ k, clientChannels (server c1) !! k ≠ Some p)
    ∧ ((∀ t, t ∈ pool c → held t ≠ Some p) →
       ∀ s c', exec s c1 = Some c' →
         unreachable p c' ∧ heap (server c') !! p = Some cs)
    ∧ (buf (Channel cs) = [] →
       (∀ t m, t ∈ pool c → t ≠ PublishFound p m) →
       ∀ s c', exec s c1 = Some c' →
         heap (server c') !! p = Some cs
         ∧ ∀ j k d pick', pool c' !! j = Some (PollWaiting k p d) →
             ((d ≤ clock c')%Z → is_Some (exec1 (Run j pick') c'))
             ∧ ∀ c'', exec1 (Run j pick') c' = Some c'' →
                 pool c'' !! j = Some (Finished TimedOut) ∧ (d ≤ clock c')%Z).
Proof.
  intros Hinv Hi Hk Hp. pose proof (inv_wf _ Hinv) as Hwf.
  destruct (subscribeHandler_existing (clock c) clientId (server c) p Hwf Hk)
    as (p' & Hp' & Hne & Hsub & Hout).
  assert (exec1 (Run i pick) c =
          Some (mkConfig (subscribeHandler (clock c) clientId (server c)).2
                  (clock c)
                  (<[i := Finished (mkResp 200 (BClientId clientId))]> (pool c))
                  (history c ++ []))) as Hexec.
  { cbn -[subscribeHandler]. rewrite Hi. cbn -[subscribeHandler].
    by rewrite Hsub. }
  eexists _, p'. split; [exact Hexec|].
  pose proof (inv_exec1 _ _ _ Hinv Hexec) as Hinv1.
  rewrite Hsub in *. cbn [snd server pool clock] in *.
  assert (<[p' := mkClient (mkChan [] false) (clock c)]> (heap (server c)) !! p
          = Some cs) as Hp1 by by rewrite lookup_insert_ne.
  split; [done|]. split; [done|]. split; [done|]. split; [done|].
  split; [done|]. split; [done|]. split.
  - intros Hpool s c' Hs.
    destruct (unreachable_exec s _ c' p Hinv1) as [Hun Heq]; [|done|].
    + split; [by eexists|]. split; [done|]. simpl.
      intros t [->|Hin]%elem_of_insert_inv; [done|by apply Hpool].
    + split; [done|]. by etrans; [exact Heq|].
  - intros Hb Hpool s c' Hs.
    destruct (wf_live _ Hwf _ _ Hk) as (cs0 & Hp0 & Hopen).
    assert (cs0 = cs) as -> by congruence.
    destruct (quiet_exec s _ c' p Hinv1) as [Hq Heq]; [|done|].
    + split; [by eauto|]. split; [done|]. simpl.
      intros t m [->|Hin]%elem_of_insert_inv; [done|by apply Hpool].
    + split; [by etrans; [exact Heq|]|].
      intros j k d pick' Hj. by apply (quiet_poll c' p j k d pick').
Qed.

(** C10, as stated, fails when a request that found the old entry is still
    in flight.  After [racingPublish] the entry of ["A"] has been replaced
    while a poll is parked on the old mailbox and a publish holds the old
    entry; the publish then deposits into the old mailbox and the parked
    poll is answered with that event one second later, 29 seconds before
    its timer.  After [racingPoll] the old mailbox holds a pending event
    and the entry has been replaced; the poll that had found the old entry
    is then answered with the pending event, which is not discarded. *)
Lemma C10_counterexample :
  (∃ c0 c,
     exec racingPublish initial = Some c0
     ∧ pool c0 = [PollWaiting "A" 1%positive (30 * Second);
                  PublishFound 1%positive "hi";
                  Finished (mkResp 200 (BClientId "A"))]
     ∧ clientChannels (server c0) !! "A" = Some 2%positive
     ∧ exec [Elapse Second; Run 1 true; Run 0 true] c0 = Some c
     ∧ pool c = [Finished (Delivered (mkEvent "hi" Second));
                 Finished Accepted;
                 Finished (mkResp 200 (BClientId "A"))]
     ∧ (clock c < 30 * Second)%Z)
  ∧ (∃ c0 c,
       exec racingPoll initial = Some c0
       ∧ pool c0 !! 2%nat = Some (PollUnlocked "A" 1%positive)
       ∧ pool c0 !! 3%nat = Some (Finished (mkResp 200 (BClientId "A")))
       ∧ clientChannels (server c0) !! "A" = Some 2%positive
       ∧ heap (server c0) !! 1%positive
         = Some (mkClient (mkChan [mkEvent "first" 0] false) 0)
       ∧ exec [Run 2 true; Run 2 true] c0 = Some c
       ∧ pool c !! 2%nat = Some (Finished (Delivered (mkEvent "first" 0)))).
Proof.
  split.
  - eexists _, _. split; [vm_compute; reflexivity|].
    split; [vm_compute; reflexivity|]. split; [vm_compute; reflexivity|].
    split; [vm_compute; reflexivity|]. split; [vm_compute; reflexivity|].
    vm_compute. reflexivity.
  - eexists _, _. split; [vm_compute; reflexivity|].
    split; [vm_compute; reflexivity|]. split; [vm_compute; reflexivity|].
    split; [vm_compute; reflexivity|]. split; [vm_compute; reflexivity|].
    split; [vm_compute; reflexivity|]. vm_compute. reflexivity.
Qed.

Lemma exec_resubscribe : exec resubscribe initial = Some resubscribeConfig.
Proof. vm_compute. reflexivity. Qed.

(** C10 on [resubscribeConfig]: the old mailbox of ["A"], on which a poll
    is parked, stays empty and open for ever. *)
Lemma C10_subscribe_replaces_witness :
  ∃ c1, exec1 (Run 1 true) resubscribeConfig = Some c1
        ∧ pool c1 = [PollWaiting "A" 1%positive (30 * Second);
                     Finished (mkResp 200 (BClientId "A"))]
        ∧ ∀ s c', exec s c1 = Some c' →
            heap (server c') !! 1%positive = Some (mkClient make_chan 0).
Proof.
  destruct (C10_subscribe_replaces resubscribeConfig 1 "A" 1%positive
              (mkClient make_chan 0) true)
    as (c1 & p' & Hexec & Hpool & _ & _ & _ & _ & _ & _ & Hquiet).
  - apply inv_reachable. exists resubscribe. apply exec_resubscribe.
  - reflexivity.
  - vm_compute. reflexivity.
  - vm_compute. reflexivity.
  - exists c1. split; [exact Hexec|]. split; [exact Hpool|].
    intros s c' Hs. refine (proj1 (Hquiet eq_refl _ s c' Hs)).
    intros t m Hin. simpl in Hin.
    apply elem_of_cons in Hin as [->|Hin]; [done|].
    apply list_elem_of_singleton in Hin as ->. done.
Defined.

(** * Further properties of the handlers *)

(** ** The answers of publish *)

(** X1: run without interference on a well-formed server, [publishHandler]
    answers 200 only when it has put exactly the stamped event into the
    empty mailbox of the registered client.  Every other answer leaves the
    server exactly as it was and is determined by the request: 400 for an
    empty clientId, checked before the body; 400 with the binding error;
    404 when the client is not registered; 503 when its mailbox holds an
    event.  It never answers 500. *)
Theorem X1_publish_answers now clientId req σ r σ' :
  wf σ → publishHandler now clientId req σ = Some (r, σ') →
  ((r = Accepted ∧ clientId ≠ "" ∧
    ∃ message p cs,
      req = BindOk message ∧ clientChannels σ !! clientId = Some p
      ∧ heap σ !! p = Some cs ∧ buf (Channel cs) = []
      ∧ σ' = mkServer (clientChannels σ)
               (<[p := mkClient (mkChan [mkEvent message now] false)
                                (LastSeen cs)]> (heap σ))
               (logs σ))
   ∨ (σ' = σ ∧
      ((clientId = "" ∧ r = ClientIdRequired)
       ∨ (clientId ≠ "" ∧ ∃ err, req = BindError err
                                 ∧ r = mkResp 400 (BError err))
       ∨ (clientId ≠ "" ∧ (∃ message, req = BindOk message)
          ∧ clientChannels σ !! clientId = None ∧ r = RejectedNotFound)
       ∨ (clientId ≠ "" ∧ (∃ message, req = BindOk message)
          ∧ (∃ p cs e, clientChannels σ !! clientId = Some p
                       ∧ heap σ !! p = Some cs ∧ buf (Channel cs) = [e])
          ∧ r = RejectedMailboxFull))))
  ∧ status r ≠ 500%nat.
Proof.
  intros Hwf. destruct (decide (clientId = "")) as [->|Hne].
  { intros [= <- <-]. split; [|done]. right. split; [done|]. by left. }
  destruct req as [err|message].
  { unfold publishHandler. cbn [thread_step]. rewrite decide_False by done.
    intros [= <- <-]. split; [|done]. right. split; [done|].
    right. left. eauto. }
  destruct (clientChannels σ !! clientId) as [p|] eqn:Hk.
  - destruct (wf_live _ Hwf _ _ Hk) as (cs & Hp & Hopen).
    pose proof (wf_cap _ Hwf _ _ Hp) as Hcap.
    rewrite (publishHandler_found _ _ _ _ _ Hne Hk).
    rewrite (sendTo_Some _ _ _ _ _ Hp), Hopen. cbn.
    case_decide as Hlen; intros [= <- <-]; (split; [|done]).
    + left. split; [done|]. split; [done|]. exists message, p, cs.
      assert (buf (Channel cs) = []) as Hb
        by (destruct (buf (Channel cs)); [done|simpl in Hlen; unfold mailboxCap in Hlen; lia]).
      rewrite Hb. done.
    + right. split; [done|]. do 3 right. split; [done|]. split; [by eauto|].
      split; [|done].
      destruct (buf (Channel cs)) as [|e [|e' rest]] eqn:Hb;
        simpl in Hlen, Hcap; unfold mailboxCap in *; try lia.
      by exists p, cs, e.
  - rewrite (publishHandler_absent _ _ _ _ Hne Hk). intros [= <- <-].
    split; [|done]. right. split; [done|]. right. right. left. eauto.
Qed.

(** X1 on [serverA]: a request whose body does not bind gets a 400 and
    changes nothing. *)
Lemma X1_publish_answers_witness :
  publishHandler Second "A" (BindError "EOF") serverA
  = Some (mkResp 400 (BError "EOF"), serverA)
  ∧ status (mkResp 400 (BError "EOF")) ≠ 500%nat.
Proof.
  split; [reflexivity|].
  refine (proj2 (X1_publish_answers Second "A" (BindError "EOF") serverA
                   (mkResp 400 (BError "EOF")) serverA wf_serverA _)).
  reflexivity.
Defined.

(** ** A poll that finds nothing *)

Lemma getOrCreate_entry now clientId σ :
  wf σ →
  (∀ p cs, clientChannels σ !! clientId = Some p → heap σ !! p = Some cs →
           buf (Channel cs) = []) →
  clientChannels (getOrCreate now clientId σ).2 !! clientId
  = Some (getOrCreate now clientId σ).1
  ∧ ∃ cs1, heap (getOrCreate now clientId σ).2 !! (getOrCreate now clientId σ).1
           = Some cs1
           ∧ buf (Channel cs1) = [] ∧ closed (Channel cs1) = false
           ∧ LastSeen cs1 = now.
Proof.
  intros Hwf Hempty. destruct (clientChannels σ !! clientId) as [p|] eqn:Hk.
  - destruct (wf_live _ Hwf _ _ Hk) as (cs & Hp & Hopen).
    rewrite (getOrCreate_existing _ _ _ _ _ Hk Hp). cbn. split; [done|].
    rewrite lookup_insert_eq. eexists. split; [done|]. cbn. eauto.
  - destruct (getOrCreate_absent now _ _ Hk) as (p & Hp & ->). cbn.
    rewrite !lookup_insert_eq. split; [done|]. eexists. split; [done|]. done.
Qed.

(** X2: a poll for a client with no pending event, run without
    interference, gives no answer before its 30 seconds are over and
    answers 204 from then on, logging the timeout.  It leaves the client
    registered with an empty open mailbox and [LastSeen] at the instant the
    poll took the lock, also when the client was not registered before.  A
    poll with an empty clientId is answered 400 and changes nothing. *)
Theorem X2_poll_without_event now wake pick clientId σ :
  wf σ → clientId ≠ "" →
  (∀ p cs, clientChannels σ !! clientId = Some p → heap σ !! p = Some cs →
           buf (Channel cs) = []) →
  ((wake < now + 30 * Second)%Z →
   pollHandler now wake pick clientId σ = None)
  ∧ ((now + 30 * Second ≤ wake)%Z →
     pollHandler now wake pick clientId σ =
       Some (TimedOut,
             mkServer (clientChannels (getOrCreate now clientId σ).2)
                      (heap (getOrCreate now clientId σ).2)
                      (logs (getOrCreate now clientId σ).2
                       ++ [LogPollTimeout clientId])))
  ∧ clientChannels (getOrCreate now clientId σ).2 !! clientId
    = Some (getOrCreate now clientId σ).1
  ∧ (∃ cs1, heap (getOrCreate now clientId σ).2 !! (getOrCreate now clientId σ).1
            = Some cs1
            ∧ buf (Channel cs1) = [] ∧ closed (Channel cs1) = false
            ∧ LastSeen cs1 = now)
  ∧ pollHandler now wake pick "" σ = Some (ClientIdRequired, σ).
Proof.
  intros Hwf Hne Hempty.
  destruct (getOrCreate_entry now clientId σ Hwf Hempty)
    as (Hk1 & cs1 & Hp1 & Hb1 & Hc1 & Hseen).
  rewrite (pollHandler_eq _ _ _ _ _ Hne).
  rewrite (pollSelect_empty _ _ _ _ _ _ _ Hp1 Hb1 Hc1).
  change pollTimeout with (30 * Second)%Z.
  split; [|split; [|split; [done|split; [by eauto|done]]]].
  - intros Hw. by rewrite bool_decide_eq_false_2 by lia.
  - intros Hw. by rewrite bool_decide_eq_true_2 by lia.
Qed.

(** X2 on the empty server: a first poll for ["B"] is still parked after
    29s and is answered 204 after 30s. *)
Lemma X2_poll_without_event_witness :
  pollHandler 0 (29 * Second) true "B" emptyServer = None
  ∧ ∃ σ', pollHandler 0 (30 * Second) true "B" emptyServer = Some (TimedOut, σ').
Proof.
  destruct (X2_poll_without_event 0 (29 * Second) true "B" emptyServer)
    as (Hpark & _).
  { apply wf_empty. }
  { done. }
  { intros p cs Hk. cbn in Hk. by rewrite lookup_empty in Hk. }
  destruct (X2_poll_without_event 0 (30 * Second) true "B" emptyServer)
    as (_ & Hout & _).
  { apply wf_empty. }
  { done. }
  { intros p cs Hk. cbn in Hk. by rewrite lookup_empty in Hk. }
  split.
  - apply Hpark. vm_compute. reflexivity.
  - eexists. apply Hout. vm_compute. discriminate.
Defined.

(** ** What holds in every state the server reaches *)

(** X3: whatever requests arrive, however their steps interleave and
    whenever the sweeper runs, no mailbox ever holds more than one event,
    every object the map points to has an open channel, no two clientIds
    share an object, and every pointer a request in flight holds refers to
    an object. *)
Theorem X3_registry_invariants c :
  reachable c →
  (∀ p cs, heap (server c) !! p = Some cs →
           (length (buf (Channel cs)) ≤ 1)%nat)
  ∧ (∀ k p, clientChannels (server c) !! k = Some p →
            ∃ cs, heap (server c) !! p = Some cs ∧ closed (Channel cs) = false)
  ∧ (∀ k1 k2 p, clientChannels (server c) !! k1 = Some p →
                clientChannels (server c) !! k2 = Some p → k1 = k2)
  ∧ (∀ t p, t ∈ pool c → held t = Some p → is_Some (heap (server c) !! p)).
Proof.
  intros [[Hlive Hinj Hcap] Hheld _]%inv_reachable.
  split; [exact Hcap|]. split; [exact Hlive|]. split; [exact Hinj|exact Hheld].
Qed.

(** X3 on [lostConfig]: the closed mailbox left behind holds one event. *)
Lemma X3_registry_invariants_witness :
  (length (buf (Channel
     (mkClient (mkChan [mkEvent "hi" (59 * Second)] true) 0))) ≤ 1)%nat.
Proof.
  refine (proj1 (X3_registry_invariants lostConfig _) 1%positive _ _).
  - exists lostEvent. vm_compute. reflexivity.
  - reflexivity.
Defined.

(** X4: in every state the server reaches, a pass of the sweeper runs to
    its end, in whatever order it visits the keys and however long it
    takes: it never closes a channel that is already closed, so it never
    panics; it leaves the requests in flight alone, and the clock has moved
    on by the time the pass took.  There always is a pass to make: one that
    takes no time. *)
Theorem X4_sweeper_never_panics c :
  reachable c →
  (∃ delays, Forall (λ kd, 0 ≤ kd.2)%Z delays ∧ ranges delays (server c))
  ∧ ∀ delays,
      Forall (λ kd, 0 ≤ kd.2)%Z delays → ranges delays (server c) →
      ∃ c', exec1 (Sweep delays) c = Some c'
            ∧ pool c' = pool c ∧ clock c' = (clock c + elapsed delays)%Z
            ∧ history c' = history c
            ∧ reachable c'.
Proof.
  intros Hr. pose proof (inv_wf _ (inv_reachable _ Hr)) as Hwf.
  split.
  { exists (instantly (map_to_list (clientChannels (server c))).*1).
    split; [|apply ranges_instantly].
    unfold instantly. apply Forall_fmap, Forall_true. done. }
  intros delays Hd Hrg.
  destruct (sweep_swept (readings (clock c) delays) (server c) Hwf)
    as (σ' & Hs & _); [apply (ranges_readings _ _ _ Hrg)|].
  assert (exec1 (Sweep delays) c
          = Some (mkConfig σ' (clock c + elapsed delays) (pool c) (history c)))
    as Hexec.
  { cbn. rewrite decide_True by done. by rewrite Hs. }
  eexists. split; [exact Hexec|]. split; [done|]. split; [done|].
  split; [done|]. by eapply reachable_step.
Qed.

(** X4 on [resubscribeConfig]. *)
Lemma X4_sweeper_never_panics_witness :
  ∃ c', exec1 (Sweep [("A", Second)]) resubscribeConfig = Some c'
        ∧ clock c' = Second.
Proof.
  destruct (X4_sweeper_never_panics resubscribeConfig) as (_ & Hpass).
  - exists resubscribe. vm_compute. reflexivity.
  - destruct (Hpass [("A", Second)]) as (c' & H & _ & Hclock & _);
      [decided..|].
    exists c'. split; [exact H|exact Hclock].
Defined.

(** ** Passes of the sweeper and polls *)

(** What a pass that does not panic has computed. *)
Lemma sweep_is_swept visits σ σ' :
  wf σ → NoDup visits.*1 → cleanUpInactiveClients visits σ = Some σ' →
  swept visits σ σ'.
Proof.
  intros Hwf Hnd Hs. destruct (sweep_swept visits σ Hwf Hnd) as (σ1 & Hs1 & Hsw).
  by assert (σ1 = σ') as -> by congruence.
Qed.

Lemma idleAt_false visits h k p :
  (∀ now, (k, now) ∈ visits → idle now h p = false) → idleAt visits h k p = false.
Proof.
  intros Hv. unfold idleAt, readingOf.
  destruct (list_to_map visits !! k) as [now|] eqn:Hk; [|done].
  apply Hv. by apply elem_of_list_to_map_2.
Qed.



Lemma getOrCreate_lastSeen now clientId σ :
  wf σ →
  clientChannels (getOrCreate now clientId σ).2 !! clientId
  = Some (getOrCreate now clientId σ).1
  ∧ ∃ cs1, heap (getOrCreate now clientId σ).2 !! (getOrCreate now clientId σ).1
           = Some cs1 ∧ LastSeen cs1 = now.
Proof.
  intros Hwf. destruct (clientChannels σ !! clientId) as [p|] eqn:Hk.
  - destruct (wf_live _ Hwf _ _ Hk) as (cs & Hp & Hopen).
    rewrite (getOrCreate_existing _ _ _ _ _ Hk Hp). cbn. split; [done|].
    rewrite lookup_insert_eq. by eexists.
  - destruct (getOrCreate_absent now _ _ Hk) as (p & Hp & ->). cbn.
    rewrite !lookup_insert_eq. split; [done|]. by eexists.
Qed.

(** X5: a client that has polled at instant [now] survives every pass of
    the sweeper that reads the clock for it up to one minute later,
    whatever the order of the visits and the readings for other clients:
    the pass keeps its entry, with the same object, mailbox and
    [LastSeen]. *)
Theorem X5_polled_client_survives now visits clientId σ σ' :
  wf σ → NoDup visits.*1 →
  (∀ now', (clientId, now') ∈ visits → (now' - now ≤ clientTimeout)%Z) →
  cleanUpInactiveClients visits (getOrCreate now clientId σ).2 = Some σ' →
  clientChannels σ' !! clientId = Some (getOrCreate now clientId σ).1
  ∧ heap σ' !! (getOrCreate now clientId σ).1
    = heap (getOrCreate now clientId σ).2 !! (getOrCreate now clientId σ).1.
Proof.
  intros Hwf Hnd Hnow Hs.
  destruct (getOrCreate_lastSeen now clientId σ Hwf) as (Hk & cs1 & Hp & Hseen).
  pose proof (wf_getOrCreate now clientId σ Hwf) as Hwf1.
  pose proof (sweep_is_swept _ _ _ Hwf1 Hnd Hs) as Hsw.
  assert (idleAt visits (heap (getOrCreate now clientId σ).2) clientId
            (getOrCreate now clientId σ).1 = false) as Hi.
  { apply idleAt_false. intros now' Hin. apply (idle_false _ _ _ _ Hp).
    specialize (Hnow _ Hin). lia. }
  split.
  - by rewrite (swept_map _ _ _ Hsw), Hk, Hi.
  - by apply (swept_kept _ _ _ clientId _ Hwf1 Hsw).
Qed.

(** X5 on the empty server: ["A"] polls at 0s and the pass at 60s keeps
    it. *)
Lemma X5_polled_client_survives_witness :
  ∃ σ', cleanUpInactiveClients (passAt (60 * Second) ["A"]) serverA = Some σ'
        ∧ clientChannels σ' !! "A" = Some 1%positive.
Proof.
  destruct (cleanUpInactiveClients (passAt (60 * Second) ["A"]) serverA)
    as [σ'|] eqn:Hs; [|by vm_compute in Hs].
  exists σ'. split; [done|].
  refine (proj1 (X5_polled_client_survives 0 (passAt (60 * Second) ["A"]) "A"
                   emptyServer σ' wf_empty _ _ Hs)).
  - decided.
  - intros now' Hin. apply list_elem_of_singleton in Hin.
    injection Hin as ->. vm_compute. discriminate.
Defined.



(** X7: once the sweeper has evicted a client, the client is unknown again:
    a publish for it is answered 404, and its next poll allocates a new
    object, different from the old one, with an empty open mailbox.  The
    old object stays in the store, closed, with whatever it held. *)
Theorem X7_poll_after_eviction visits now now' clientId σ σ' p cs :
  wf σ → NoDup visits.*1 →
  clientChannels σ !! clientId = Some p → heap σ !! p = Some cs →
  (clientId, now) ∈ visits → (now - LastSeen cs > clientTimeout)%Z →
  cleanUpInactiveClients visits σ = Some σ' →
  clientChannels σ' !! clientId = None
  ∧ heap σ' !! p = Some (mkClient (mkChan (buf (Channel cs)) true) (LastSeen cs))
  ∧ (clientId ≠ "" → ∀ message,
       publishHandler now' clientId (BindOk message) σ'
       = Some (RejectedNotFound, σ'))
  ∧ ∃ p', p' ≠ p ∧ heap σ' !! p' = None
      ∧ getOrCreate now' clientId σ' =
          (p', mkServer (<[clientId := p']> (clientChannels σ'))
                        (<[p' := mkClient (mkChan [] false) now']> (heap σ'))
                        (logs σ' ++ [LogSubscribed clientId])).
Proof.
  intros Hwf Hnd Hk Hp Hin Hidle Hs.
  pose proof (sweep_is_swept _ _ _ Hwf Hnd Hs) as Hsw.
  assert (idleAt visits (heap σ) clientId p = true) as Hi.
  { rewrite (idleAt_visit _ _ _ now) by done. apply idle_true; eauto. }
  assert (clientChannels σ' !! clientId = None) as Hk'.
  { by rewrite (swept_map _ _ _ Hsw), Hk, Hi. }
  assert (heap σ' !! p = Some (released cs)) as Hp'.
  { destruct (swept_released _ _ _ Hsw clientId p Hk Hi) as (cs' & Hcs' & ->).
    congruence. }
  split; [done|]. split; [done|]. split.
  - intros Hne message. by apply publishHandler_absent.
  - destruct (getOrCreate_absent now' _ _ Hk') as (p' & Hfresh & Hg).
    exists p'. split; [congruence|]. by split.
Qed.

(** X7 on [server3]: after the pass at 70s, ["A"] is unknown and its next
    poll gets a new object. *)
Lemma X7_poll_after_eviction_witness :
  ∃ σ', cleanUpInactiveClients (passAt (70 * Second) ["C"; "A"; "B"]) server3
        = Some σ'
        ∧ clientChannels σ' !! "A" = None
        ∧ publishHandler (71 * Second) "A" (BindOk "late") σ'
          = Some (RejectedNotFound, σ').
Proof.
  destruct (cleanUpInactiveClients (passAt (70 * Second) ["C"; "A"; "B"]) server3)
    as [σ'|] eqn:Hs; [|by vm_compute in Hs].
  destruct (X7_poll_after_eviction (passAt (70 * Second) ["C"; "A"; "B"])
              (70 * Second) (71 * Second) "A" server3 σ'
              1%positive (mkClient make_chan 0) wf_server3)
    as (Hk & _ & Hpub & _).
  - decided.
  - vm_compute. reflexivity.
  - vm_compute. reflexivity.
  - decided.
  - vm_compute. reflexivity.
  - exact Hs.
  - exists σ'. split; [done|]. split; [exact Hk|]. by apply Hpub.
Defined.

(** ** Publish, poll and subscribe in sequence *)

(** X8: on a registered client with an empty mailbox, an accepted publish
    followed by a poll hands the event over and leaves the server exactly
    as the poll alone would have left it: the mailbox is empty again, and
    the next publish for the client is accepted again. *)
Theorem X8_publish_poll_round_trip now now' wake pick clientId message σ p cs :
  wf σ → clientId ≠ "" →
  clientChannels σ !! clientId = Some p → heap σ !! p = Some cs →
  buf (Channel cs) = [] → (wake < now' + pollTimeout)%Z →
  ∃ σ1, publishHandler now clientId (BindOk message) σ = Some (Accepted, σ1)
    ∧ pollHandler now' wake pick clientId σ1
      = Some (Delivered (mkEvent message now), (getOrCreate now' clientId σ).2)
    ∧ ∀ now2 message2, ∃ σ3,
        publishHandler now2 clientId (BindOk message2)
          (getOrCreate now' clientId σ).2 = Some (Accepted, σ3).
Proof.
  intros Hwf Hne Hk Hp Hb Hwake.
  destruct (wf_live _ Hwf _ _ Hk) as (cs0 & Hp0 & Hopen).
  assert (cs0 = cs) as -> by congruence.
  assert (Channel cs = mkChan [] false) as Hch
    by (by rewrite <- (mkChan_eta (Channel cs)), Hb, Hopen).
  set (σ1 := mkServer (clientChannels σ)
               (<[p := mkClient (mkChan [mkEvent message now] false)
                                (LastSeen cs)]> (heap σ))
               (logs σ)).
  exists σ1. split; [|split].
  - rewrite (publishHandler_found _ _ _ _ _ Hne Hk).
    rewrite (sendTo_Some _ _ _ _ _ Hp), Hopen, Hb. cbn. done.
  - rewrite (pollHandler_pending now' wake pick clientId σ1 p
               (mkClient (mkChan [mkEvent message now] false) (LastSeen cs))
               (mkEvent message now) [] Hne Hwake Hk
               (lookup_insert_eq (heap σ) p _) eq_refl).
    rewrite (getOrCreate_existing _ _ _ _ _ Hk Hp). cbn.
    by rewrite insert_insert_eq, Hch.
  - intros now2 message2.
    rewrite (getOrCreate_existing _ _ _ _ _ Hk Hp). cbn [snd].
    erewrite publishHandler_found; [|done|done].
    erewrite sendTo_Some; [|cbn; apply lookup_insert_eq].
    cbn. rewrite Hch. cbn. by eexists.
Qed.

(** X8 on [serverA]. *)
Lemma X8_publish_poll_round_trip_witness :
  ∃ σ1, publishHandler Second "A" (BindOk "first") serverA = Some (Accepted, σ1)
        ∧ pollHandler (2 * Second) (2 * Second) true "A" σ1
          = Some (Delivered (mkEvent "first" Second),
                  (getOrCreate (2 * Second) "A" serverA).2).
Proof.
  destruct (X8_publish_poll_round_trip Second (2 * Second) (2 * Second) true
              "A" "first" serverA 1%positive (mkClient make_chan 0))
    as (σ1 & Hpub & Hpoll & _).
  - apply wf_serverA.
  - done.
  - vm_compute. reflexivity.
  - vm_compute. reflexivity.
  - reflexivity.
  - vm_compute. reflexivity.
  - by exists σ1.
Defined.

(** X9: after a subscribe the next publish for the clientId is accepted
    and the poll that follows delivers it, whatever the server held for
    that clientId before: no entry, an empty mailbox or a full one. *)
Theorem X9_subscribe_then_publish now now1 now2 wake pick clientId message σ :
  wf σ → clientId ≠ "" → (wake < now2 + pollTimeout)%Z →
  ∃ σ2 σ3,
    publishHandler now1 clientId (BindOk message) (subscribeHandler now clientId σ).2
    = Some (Accepted, σ2)
    ∧ pollHandler now2 wake pick clientId σ2
      = Some (Delivered (mkEvent message now1), σ3).
Proof.
  intros Hwf Hne Hwake.
  pose proof (wf_subscribeHandler now clientId σ Hwf) as Hwf1.
  unfold subscribeHandler in *. fresh_object p Hp. cbn [snd] in *.
  eexists _, _. split.
  - erewrite publishHandler_found; [|done|cbn; apply lookup_insert_eq].
    erewrite sendTo_Some; [|cbn; apply lookup_insert_eq]. cbn. done.
  - eapply pollHandler_pending; try done; cbn.
    + apply lookup_insert_eq.
    + apply lookup_insert_eq.
    + done.
Qed.

(** X9 on [serverA_pending], where the mailbox of ["A"] is full. *)
Lemma X9_subscribe_then_publish_witness :
  ∃ σ2 σ3,
    publishHandler (3 * Second) "A" (BindOk "second")
      (subscribeHandler (2 * Second) "A" serverA_pending).2
    = Some (Accepted, σ2)
    ∧ pollHandler (4 * Second) (4 * Second) true "A" σ2
      = Some (Delivered (mkEvent "second" (3 * Second)), σ3).
Proof.
  apply (X9_subscribe_then_publish (2 * Second) (3 * Second) (4 * Second)
           (4 * Second) true "A" "second" serverA_pending).
  - apply wf_serverA_pending.
  - done.
  - vm_compute. reflexivity.
Defined.

(** X10: the only steps of a handler that change what the map holds for a
    clientId are a subscribe for it and the lock region of a poll for it
    when it is not registered, and both register it.  No handler removes an
    entry, and publish and the [select] of poll never touch the map. *)
Theorem X10_registry_changes now pick t σ t' σ' o k :
  thread_step now pick t σ = Some (t', σ', o) →
  clientChannels σ' !! k ≠ clientChannels σ !! k →
  (t = SubscribeEntry k ∨ (t = PollEntry k ∧ clientChannels σ !! k = None))
  ∧ is_Some (clientChannels σ' !! k).
Proof.
  destruct t as [k0|k0|k0 q|k0 q d|k0 req|q m|r]; cbn [thread_step].
  - unfold subscribeHandler, alloc. intros [= <- <- <-]. cbn.
    rewrite lookup_insert. case_decide; [subst; eauto|done].
  - case_decide; [by intros [= <- <- <-]|].
    unfold getOrCreate, alloc.
    destruct (clientChannels σ !! k0) as [p|] eqn:Hk0; intros [= <- <- <-]; cbn;
      [done|].
    rewrite lookup_insert. case_decide; [subst; eauto|done].
  - by intros [= <- <- <-].
  - destruct (pollSelect now d pick k0 q σ) as [[[o' r] σ1]|] eqn:Hs; [|done].
    cbn. intros [= <- <- <-] Hne. destruct Hne.
    apply sameLastSeen_pollSelect in Hs as [-> _]. done.
  - case_decide; [by intros [= <- <- <-]|].
    destruct req; [by intros [= <- <- <-]|].
    destruct (lookup k0 σ); by intros [= <- <- <-].
  - destruct (sendTo now q m σ) as [[[o' r] σ1]|] eqn:Hs; [|done].
    cbn. intros [= <- <- <-] Hne. destruct Hne.
    apply sameLastSeen_sendTo in Hs as [-> _]. done.
  - done.
Qed.

(** X10 on [serverA]: the first poll of ["B"] registers it. *)
Lemma X10_registry_changes_witness :
  is_Some (clientChannels (getOrCreate Second "B" serverA).2 !! "B").
Proof.
  refine (proj2 (X10_registry_changes Second true (PollEntry "B") serverA
                   (PollUnlocked "B" (getOrCreate Second "B" serverA).1)
                   (getOrCreate Second "B" serverA).2 [] "B" _ _)).
  - vm_compute. reflexivity.
  - vm_compute. discriminate.
Defined.

(** ** Clock readings *)

Lemma stamped_mono now now' σ :
  (now ≤ now')%Z → stamped now σ → stamped now' σ.
Proof.
  intros Hle Hst p cs Hp. destruct (Hst p cs Hp) as [Hseen Hbuf].
  split; [lia|]. eapply List.Forall_impl; [|exact Hbuf]. simpl. intros e He. lia.
Qed.

Lemma stamped_heap now σ m ls :
  stamped now σ → stamped now (mkServer m (heap σ) ls).
Proof. done. Qed.

Lemma stamped_insert now σ m p cs ls :
  stamped now σ → (LastSeen cs ≤ now)%Z →
  Forall (λ e, (Time e ≤ now)%Z) (buf (Channel cs)) →
  stamped now (mkServer m (<[p := cs]> (heap σ)) ls).
Proof.
  intros Hst Hseen Hbuf q cs'. cbn. rewrite lookup_insert.
  case_decide; [by intros [= <-]|apply Hst].
Qed.

Lemma stamped_getOrCreate now k σ :
  stamped now σ → stamped now (getOrCreate now k σ).2.
Proof.
  intros Hst. unfold getOrCreate, alloc.
  destruct (clientChannels σ !! k) as [p|]; cbn.
  - intros q cs. cbn. rewrite lookup_alter. case_decide; [subst|apply Hst].
    destruct (heap σ !! q) as [cs0|] eqn:Hq; [|done]. intros [= <-]. cbn.
    split; [lia|]. by apply (Hst q cs0).
  - apply stamped_insert; cbn; [done|lia|done].
Qed.

Lemma stamped_thread_step now pick t σ t' σ' o :
  stamped now σ → thread_step now pick t σ = Some (t', σ', o) → stamped now σ'.
Proof.
  intros Hst. destruct t as [k|k|k p|k p d|k req|p m|r]; cbn [thread_step].
  - unfold subscribeHandler, alloc. intros [= <- <- <-].
    apply stamped_insert; cbn; [done|lia|done].
  - case_decide; [by intros [= <- <- <-]|].
    pose proof (stamped_getOrCreate now k σ Hst) as Hg.
    destruct (getOrCreate now k σ). by intros [= <- <- <-].
  - by intros [= <- <- <-].
  - unfold pollSelect.
    destruct (recvFrom p σ) as [[[e ok] σ1]|] eqn:Hr.
    + assert (stamped now σ1) as Hst1.
      { apply recvFrom_Some in Hr
          as (cs & Hp & [(rest & Hb & -> & ->)|(_ & _ & _ & _ & ->)]); [|done].
        destruct (Hst p cs Hp) as [Hseen Hbuf]. rewrite Hb in Hbuf.
        apply stamped_insert; cbn; [done..|]. by eapply Forall_cons_1. }
      destruct (bool_decide _); try destruct pick; cbn; intros [= <- <- <-];
        done.
    + destruct (bool_decide _); cbn; [|done]. by intros [= <- <- <-].
  - case_decide; [by intros [= <- <- <-]|].
    destruct req; [by intros [= <- <- <-]|].
    destruct (lookup k σ); by intros [= <- <- <-].
  - destruct (heap σ !! p) as [cs|] eqn:Hp.
    + rewrite (sendTo_Some _ _ _ _ _ Hp). cbn.
      destruct (closed (Channel cs)); [by intros [= <- <- <-]|].
      case_decide; intros [= <- <- <-]; [|done].
      destruct (Hst p cs Hp) as [Hseen Hbuf].
      apply stamped_insert; cbn; [done..|].
      apply Forall_app. split; [done|]. apply Forall_singleton. cbn. lia.
    + unfold sendTo. by rewrite Hp.
  - done.
Qed.

Lemma stamped_swept now visits σ σ' :
  swept visits σ σ' → stamped now σ → stamped now σ'.
Proof.
  intros Hsw Hst q cs'.
  destruct (swept_object _ _ _ q Hsw) as [->|(cs & Hq & ->)]; [apply Hst|].
  intros [= <-]. by apply (Hst q cs).
Qed.

Lemma clock_exec1 a c c' :
  inv c → (0 ≤ clock c)%Z ∧ stamped (clock c) (server c) ∧ armed c →
  exec1 a c = Some c' →
  (0 ≤ clock c')%Z ∧ stamped (clock c') (server c') ∧ armed c'.
Proof.
  intros Hinv (Hpos & Hst & Harm). destruct a as [d|t|i pick|delays]; simpl.
  - case_decide; [|done]. intros [= <-]. cbn. split; [lia|]. split.
    + eapply stamped_mono; [|done]. lia.
    + intros j k p d' Hj. specialize (Harm j k p d' Hj). cbn. lia.
  - destruct (is_entry t) eqn:Ht; [|done]. intros [= <-]. cbn.
    split; [done|]. split; [done|]. intros j k p d' Hj. cbn in Hj.
    apply lookup_app_Some in Hj as [Hj|[_ Hj]]; [by eapply Harm|].
    apply list_lookup_singleton_Some in Hj as [_ ->]. done.
  - destruct (pool c !! i) as [t|] eqn:Hi; [|done]. simpl.
    destruct (thread_step _ _ _ _) as [[[t' σ'] o]|] eqn:Hstep; [|done].
    simpl. intros [= <-]. cbn. split; [done|].
    split; [by eapply stamped_thread_step|].
    intros j k p d' Hj. cbn in Hj.
    destruct (decide (i = j)) as [->|Hne].
    + rewrite list_lookup_insert_eq in Hj by by eapply lookup_lt_Some.
      injection Hj as ->.
      destruct t as [k0|k0|k0 q|k0 q d0|k0 req|q m|r];
        cbn [thread_step] in Hstep.
      * unfold subscribeHandler, alloc in Hstep. by injection Hstep.
      * case_decide; [by injection Hstep|].
        destruct (getOrCreate _ _ _). by injection Hstep.
      * injection Hstep as <- <- <- _ _. cbn. lia.
      * destruct (pollSelect _ _ _ _ _ _) as [[[? ?] ?]|]; [|done].
        by injection Hstep.
      * case_decide; [by injection Hstep|].
        destruct req; [by injection Hstep|].
        destruct (lookup k0 (server c)); by injection Hstep.
      * destruct (sendTo _ _ _ _) as [[[? ?] ?]|]; [|done]. by injection Hstep.
      * done.
    + rewrite list_lookup_insert_ne in Hj by done. by eapply Harm.
  - intros Hs.
    apply (exec1_Sweep_swept delays c c' (inv_wf _ Hinv)) in Hs
      as (σ' & Hd%elapsed_nonneg & _ & Hsw & ->).
    cbn. split; [lia|]. split.
    + eapply stamped_mono; [|by eapply stamped_swept]. lia.
    + intros j k p d' Hj. specialize (Harm j k p d' Hj). cbn. lia.
Qed.

Lemma clock_reachable c :
  reachable c → (0 ≤ clock c)%Z ∧ stamped (clock c) (server c) ∧ armed c.
Proof.
  intros [s Hs]. revert c Hs.
  induction s as [|a s IH] using rev_ind; intros c.
  - intros [= <-]. split; [done|]. split.
    + intros p cs Hp. cbn in Hp. by rewrite lookup_empty in Hp.
    + intros j k p d Hj. cbn in Hj. by rewrite lookup_nil in Hj.
  - rewrite exec_app.
    destruct (exec s initial) as [c0|] eqn:H0; [|done]. cbn.
    destruct (exec1 a c0) as [c1|] eqn:H1; [|done]. cbn. intros [= <-].
    eapply clock_exec1; [|by apply IH|done].
    apply inv_reachable. by exists s.
Qed.

(** X11: in every state the server reaches, no [LastSeen] and no stamp of
    a buffered event lies after the current clock reading, so
    [time.Since(LastSeen)] is never negative; and the timer of every parked
    poll is due at most 30 seconds ahead, so that 30 seconds later the poll
    can take its step and is answered, whatever else has happened to its
    entry. *)
Theorem X11_clock_readings c :
  reachable c →
  (∀ p cs, heap (server c) !! p = Some cs →
     (0 ≤ clock c - LastSeen cs)%Z
     ∧ ∀ e, e ∈ buf (Channel cs) → (Time e ≤ clock c)%Z)
  ∧ (∀ j k p d, pool c !! j = Some (PollWaiting k p d) →
       (d ≤ clock c + 30 * Second)%Z
       ∧ ∀ pick, ∃ c1 c2 r,
           exec1 (Elapse (30 * Second)) c = Some c1
           ∧ exec1 (Run j pick) c1 = Some c2
           ∧ pool c2 !! j = Some (Finished r)).
Proof.
  intros (_ & Hst & Harm)%clock_reachable. split.
  - intros p cs Hp. destruct (Hst p cs Hp) as [Hseen Hbuf]. split; [lia|].
    intros e He. by apply (proj1 (list.Forall_forall _ _) Hbuf).
  - intros j k p d Hj. pose proof (Harm j k p d Hj) as Hd.
    change pollTimeout with (30 * Second)%Z in Hd. split; [done|].
    intros pick.
    assert (∃ o r σ', pollSelect (clock c + 30 * Second) d pick k p (server c)
                      = Some (o, r, σ')) as (o & r & σ' & Hsel).
    { unfold pollSelect. rewrite bool_decide_eq_true_2 by done.
      destruct (recvFrom p (server c)) as [[[e ok] σ1]|]; [destruct pick|];
        eauto. }
    eexists _, _, r. split; [done|]. cbn. rewrite Hj. cbn. rewrite Hsel. cbn.
    split; [done|]. cbn. apply list_lookup_insert_eq. by eapply lookup_lt_Some.
Qed.

(** X11 on [resubscribeConfig]: the poll parked there is answered 30s
    later. *)
Lemma X11_clock_readings_witness :
  ∃ c1 c2 r,
    exec1 (Elapse (30 * Second)) resubscribeConfig = Some c1
    ∧ exec1 (Run 0 true) c1 = Some c2
    ∧ pool c2 !! 0%nat = Some (Finished r).
Proof.
  destruct (X11_clock_readings resubscribeConfig) as (_ & Hpoll).
  - exists resubscribe. vm_compute. reflexivity.
  - destruct (Hpoll 0%nat "A" 1%positive (30 * Second)%Z eq_refl) as (_ & H).
    exact (H true).
Defined.

(** ** Clients do not interfere *)

Lemma pollSelect_other now d pick k p σ o r σ' q :
  pollSelect now d pick k p σ = Some (o, r, σ') → q ≠ p →
  clientChannels σ' = clientChannels σ ∧ heap σ' !! q = heap σ !! q.
Proof.
  intros Hs Hne. unfold pollSelect in Hs.
  destruct (recvFrom p σ) as [[[e ok] σ1]|] eqn:Hr.
  - apply recvFrom_Some in Hr
      as (cs & Hp & [(rest & Hb & -> & ->)|(_ & _ & _ & -> & ->)]);
      destruct (bool_decide _); try destruct pick; injection Hs as <- <- <-;
      cbn; rewrite ?lookup_insert_ne by done; done.
  - destruct (bool_decide _); [|done]. by injection Hs as <- <- <-.
Qed.

Lemma getOrCreate_other now k σ k' p' :
  wf σ → k ≠ k' → clientChannels σ !! k' = Some p' →
  (getOrCreate now k σ).1 ≠ p'
  ∧ clientChannels (getOrCreate now k σ).2 !! k' = Some p'
  ∧ heap (getOrCreate now k σ).2 !! p' = heap σ !! p'.
Proof.
  intros Hwf Hne Hk'. destruct (wf_live _ Hwf _ _ Hk') as (cs' & Hp' & _).
  destruct (clientChannels σ !! k) as [p|] eqn:Hk.
  - destruct (wf_live _ Hwf _ _ Hk) as (cs & Hp & _).
    rewrite (getOrCreate_existing _ _ _ _ _ Hk Hp). cbn.
    assert (p ≠ p') as Hpp by (intros ->; by pose proof (wf_inj _ Hwf _ _ _ Hk Hk')).
    split; [done|]. split; [done|]. by rewrite lookup_insert_ne.
  - destruct (getOrCreate_absent now _ _ Hk) as (p & Hp & ->). cbn.
    assert (p ≠ p') as Hpp by congruence.
    split; [done|]. rewrite !lookup_insert_ne by done. done.
Qed.

(** X12: a request for one clientId never touches the entry of another:
    a publish, a poll or a subscribe for [k], whatever it answers, leaves
    every other registered clientId pointing to the same object, with the
    same mailbox content and the same [LastSeen].  So an event published
    for one client is never delivered to, or dropped by, a request of
    another client. *)
Theorem X12_clients_do_not_interfere now wake pick k req σ k' p' :
  wf σ → k ≠ k' → clientChannels σ !! k' = Some p' →
  (∀ r σ1, publishHandler now k req σ = Some (r, σ1) →
     clientChannels σ1 !! k' = Some p' ∧ heap σ1 !! p' = heap σ !! p')
  ∧ (∀ r σ1, pollHandler now wake pick k σ = Some (r, σ1) →
       clientChannels σ1 !! k' = Some p' ∧ heap σ1 !! p' = heap σ !! p')
  ∧ clientChannels (subscribeHandler now k σ).2 !! k' = Some p'
  ∧ heap (subscribeHandler now k σ).2 !! p' = heap σ !! p'.
Proof.
  intros Hwf Hne Hk'. destruct (wf_live _ Hwf _ _ Hk') as (cs' & Hp' & _).
  split; [|split].
  - intros r σ1 Hpub. destruct (decide (k = "")) as [->|Hk0].
    { injection Hpub as <- <-. done. }
    destruct req as [err|m].
    { unfold publishHandler in Hpub. cbn [thread_step] in Hpub.
      rewrite decide_False in Hpub by done. by injection Hpub as <- <-. }
    destruct (clientChannels σ !! k) as [p|] eqn:Hk.
    + destruct (wf_live _ Hwf _ _ Hk) as (cs & Hp & _).
      assert (p ≠ p') as Hpp
        by (intros ->; by pose proof (wf_inj _ Hwf _ _ _ Hk Hk')).
      rewrite (publishHandler_found _ _ _ _ _ Hk0 Hk) in Hpub.
      rewrite (sendTo_Some _ _ _ _ _ Hp) in Hpub. cbn in Hpub.
      destruct (closed (Channel cs)); [by injection Hpub as <- <-|].
      case_decide; injection Hpub as <- <-; cbn;
        rewrite ?lookup_insert_ne by done; done.
    + rewrite (publishHandler_absent _ _ _ _ Hk0 Hk) in Hpub.
      by injection Hpub as <- <-.
  - intros r σ1 Hpoll. destruct (decide (k = "")) as [->|Hk0].
    { injection Hpoll as <- <-. done. }
    rewrite (pollHandler_eq _ _ _ _ _ Hk0) in Hpoll.
    destruct (getOrCreate_other now k σ k' p' Hwf Hne Hk') as (Hpp & Hk1 & Hp1).
    destruct (pollSelect _ _ _ _ _ _) as [[[o r'] σ2]|] eqn:Hs; [|done].
    cbn in Hpoll. injection Hpoll as <- <-.
    destruct (pollSelect_other _ _ _ _ _ _ _ _ _ p' Hs) as [Hm Hh]; [done|].
    rewrite Hm, Hh. done.
  - unfold subscribeHandler. fresh_object p Hp. cbn.
    assert (p ≠ p') as Hpp by congruence.
    rewrite !lookup_insert_ne by done. done.
Qed.

(** X12 on [server3]: a publish for ["A"] leaves the entry of ["B"]
    alone. *)
Lemma X12_clients_do_not_interfere_witness :
  ∃ σ1, publishHandler (60 * Second) "A" (BindOk "hi") server3
        = Some (Accepted, σ1)
        ∧ clientChannels σ1 !! "B" = Some 2%positive
        ∧ heap σ1 !! 2%positive = heap server3 !! 2%positive.
Proof.
  destruct (publishHandler (60 * Second) "A" (BindOk "hi") server3)
    as [[r σ1]|] eqn:Hpub; [|by vm_compute in Hpub].
  assert (r = Accepted) as -> by (vm_compute in Hpub; by injection Hpub as <- _).
  exists σ1. split; [done|].
  refine (proj1 (X12_clients_do_not_interfere (60 * Second) (60 * Second) true
                   "A" (BindOk "hi") server3 "B" 2%positive wf_server3 _ _)
            Accepted σ1 Hpub).
  - done.
  - vm_compute. reflexivity.
Defined.

(** * Properties of the earlier server *)

Module SingleChannelFacts.
Import SingleChannel.

Lemma count_app P l1 l2 : count P (l1 ++ l2) = (count P l1 + count P l2)%nat.
Proof. induction l1 as [|t l1 IH]; simpl; [done|]. rewrite IH. lia. Qed.

(** Replacing one goroutine moves a count by what the old and the new one
    contribute. *)
Lemma count_insert P l i x y :
  l !! i = Some y →
  (count P (<[i := x]> l) + (if P y then 1 else 0)
   = count P l + (if P x then 1 else 0))%nat.
Proof.
  revert i. induction l as [|t l IH]; intros [|i] Hi; simpl in *; try done.
  - injection Hi as ->. lia.
  - specialize (IH i Hi). lia.
Qed.

(** An answer is counted as soon as the send or receive before it has
    completed. *)
Lemma count_le (P Q : thread → bool) l :
  (∀ t, P t = true → Q t = true) → (count P l ≤ count Q l)%nat.
Proof.
  intros HPQ. induction l as [|t l IH]; simpl; [done|].
  destruct (P t) eqn:HP; [rewrite (HPQ t HP)|destruct (Q t)]; lia.
Qed.

Lemma enter_quiet now t t' :
  enter now t = Some t' →
  sent t = false ∧ received t = false ∧ sent t' = false ∧ received t' = false.
Proof.
  destruct t as [| | |[err|m]| | |]; simpl; try done; by intros [= <-].
Qed.

Lemma answer_same t t' :
  answer t = Some t' → sent t' = sent t ∧ received t' = received t.
Proof. destruct t; simpl; try done; by intros [= <-]. Qed.

(** Only the rendezvous completes a send or a receive, and it completes
    one of each. *)
Lemma balance_exec1 a c c' :
  exec1 a c = Some c' →
  count sent (pool c) = count received (pool c) →
  count sent (pool c') = count received (pool c').
Proof.
  destruct a as [d|t|i|i j|i|j]; simpl.
  - case_decide; [|done]. by intros [= <-].
  - destruct (is_entry t) eqn:Ht; [|done]. intros [= <-]. simpl.
    rewrite !count_app. simpl. destruct t; try done; simpl; lia.
  - destruct (pool c !! i) as [t|] eqn:Hi; [|done]. simpl.
    destruct (enter (clock c) t) as [t'|] eqn:He; [|done]. simpl.
    intros [= <-]. simpl.
    destruct (enter_quiet _ _ _ He) as (Hp & Hd & Hp' & Hd').
    pose proof (count_insert sent _ _ t' _ Hi) as H1.
    pose proof (count_insert received _ _ t' _ Hi) as H2.
    rewrite Hp, Hp' in H1. rewrite Hd, Hd' in H2. lia.
  - destruct (pool c !! i) as [s|] eqn:Hi; [|done]. simpl.
    destruct (pool c !! j) as [r|] eqn:Hj; [|done]. simpl.
    destruct s as [| | | |e| |]; try done. destruct r as [|d| | | | |]; try done.
    intros [= <-]. simpl.
    assert (i ≠ j) as Hne by (intros ->; congruence).
    assert (<[i := PublishSent]> (pool c) !! j = Some (LongPollWaiting d))
      as Hj' by by rewrite list_lookup_insert_ne.
    pose proof (count_insert sent _ _ PublishSent _ Hi) as H1.
    pose proof (count_insert received _ _ PublishSent _ Hi) as H2.
    pose proof (count_insert sent _ _ (LongPollReceived e) _ Hj') as H3.
    pose proof (count_insert received _ _ (LongPollReceived e) _ Hj') as H4.
    simpl in *. lia.
  - destruct (pool c !! i) as [t|] eqn:Hi; [|done]. simpl.
    destruct (answer t) as [t'|] eqn:Ha; [|done]. simpl.
    intros [= <-]. simpl.
    destruct (answer_same _ _ Ha) as [Hs Hr].
    pose proof (count_insert sent _ _ t' _ Hi) as H1.
    pose proof (count_insert received _ _ t' _ Hi) as H2.
    rewrite Hs in H1. rewrite Hr in H2. lia.
  - destruct (pool c !! j) as [t|] eqn:Hj; [|done]. simpl.
    destruct t as [|d| | | | |]; try done. case_decide; [|done].
    intros [= <-]. simpl.
    pose proof (count_insert sent _ _ (Finished NoNewEvents) _ Hj) as H1.
    pose proof (count_insert received _ _ (Finished NoNewEvents) _ Hj) as H2.
    simpl in *. lia.
Qed.

Lemma exec_snoc s a c :
  exec (s ++ [a]) c = c' ← exec s c; exec1 a c'.
Proof.
  revert c. induction s as [|b s IH]; intros c; simpl.
  - by destruct (exec1 a c).
  - destruct (exec1 b c); simpl; [apply IH|done].
Qed.

(** X13: the earlier server never holds an event: in every state it
    reaches, the sends that have completed are as many as the receives
    that have completed.  The two handlers answer each on its own
    afterwards, so at any moment the publishes answered 200 are at most as
    many as the polls that have taken an event, and the polls answered with
    an event at most as many as the publishes whose send has completed. *)
Theorem X13_sends_match_receives c :
  reachable c →
  count sent (pool c) = count received (pool c)
  ∧ (count published (pool c) ≤ count received (pool c))%nat
  ∧ (count delivered (pool c) ≤ count sent (pool c))%nat.
Proof.
  intros [s Hs].
  assert (count sent (pool c) = count received (pool c)) as Heq.
  { revert c Hs. induction s as [|a s IH] using rev_ind; intros c.
    - by intros [= <-].
    - rewrite exec_snoc. destruct (exec s initial) as [c0|] eqn:H0; [|done].
      simpl. intros H1. eapply balance_exec1; [done|]. by apply IH. }
  split; [done|]. split.
  - rewrite <- Heq. apply count_le. intros t Ht. by destruct t.
  - rewrite Heq. apply count_le. intros t Ht. by destruct t.
Qed.

(** X13 after [twoPolls]: the publish has been answered, the poll that
    took its event has not answered yet. *)
Lemma X13_sends_match_receives_witness :
  ∃ c, exec twoPolls initial = Some c
       ∧ count published (pool c) = 1%nat
       ∧ count delivered (pool c) = 0%nat
       ∧ count received (pool c) = 1%nat.
Proof.
  destruct (exec twoPolls initial) as [c|] eqn:Hc; [|by vm_compute in Hc].
  exists c. split; [done|].
  destruct (X13_sends_match_receives c) as (Heq & _ & _);
    [by exists twoPolls|].
  assert (count sent (pool c) = 1%nat) as Hsent.
  { vm_compute in Hc. injection Hc as <-. reflexivity. }
  split; [vm_compute in Hc; injection Hc as <-; reflexivity|].
  split; [vm_compute in Hc; injection Hc as <-; reflexivity|].
  by rewrite <- Heq.
Defined.

Lemma pollfree_exec1 a c c' :
  (∀ t, a = Arrive t → is_poll t = false) →
  Forall pollfree (pool c) → exec1 a c = Some c' → Forall pollfree (pool c').
Proof.
  intros Ha Hall. destruct a as [d|t|i|i j|i|j]; simpl.
  - case_decide; [|done]. by intros [= <-].
  - destruct (is_entry t) eqn:Ht; [|done]. intros [= <-]. simpl.
    apply Forall_app. split; [done|]. apply Forall_singleton.
    split; [by apply Ha|]. by destruct t.
  - destruct (pool c !! i) as [t|] eqn:Hi; [|done]. simpl.
    destruct (enter (clock c) t) as [t'|] eqn:He; [|done]. simpl.
    intros [= <-]. simpl. apply Forall_insert; [done|].
    pose proof (Forall_lookup_1 _ _ _ _ Hall Hi) as [Hpoll _].
    destruct t as [| | |[err|m]| | |]; simpl in He; try done;
      injection He as <-; done.
  - destruct (pool c !! i) as [s|] eqn:Hi; [|done]. simpl.
    destruct (pool c !! j) as [r|] eqn:Hj; [|done]. simpl.
    destruct s as [| | | |e| |]; try done. destruct r as [|d| | | | |]; try done.
    by pose proof (Forall_lookup_1 _ _ _ _ Hall Hj) as [Hpoll _].
  - destruct (pool c !! i) as [t|] eqn:Hi; [|done]. simpl.
    pose proof (Forall_lookup_1 _ _ _ _ Hall Hi) as [Hpoll Hsent].
    by destruct t.
  - destruct (pool c !! j) as [t|] eqn:Hj; [|done]. simpl.
    destruct t as [|d| | | | |]; try done.
    by pose proof (Forall_lookup_1 _ _ _ _ Hall Hj) as [Hpoll _].
Qed.

(** X14: in the earlier server a publish needs a poll to be answered: in a
    run in which no poll request arrives, no publish is ever answered 200,
    however long it waits; no send has completed and none can, and every
    publish whose body binds stays parked in its send. *)
Theorem X14_publish_waits_for_a_poll s c :
  exec s initial = Some c →
  (∀ t, Arrive t ∈ s → is_poll t = false) →
  (∀ t, t ∈ pool c → published t = false ∧ t ≠ PublishSent)
  ∧ (∀ i j, exec1 (Handoff i j) c = None)
  ∧ (∀ i e s' c', pool c !! i = Some (PublishSending e) →
       exec s' c = Some c' → (∀ t, Arrive t ∈ s' → is_poll t = false) →
       pool c' !! i = Some (PublishSending e)).
Proof.
  assert (∀ s c c', Forall pollfree (pool c) → exec s c = Some c' →
            (∀ t, Arrive t ∈ s → is_poll t = false) →
            Forall pollfree (pool c')
            ∧ ∀ i e, pool c !! i = Some (PublishSending e) →
                     pool c' !! i = Some (PublishSending e)) as Hrun.
  { clear. intros s. induction s as [|a s IH]; intros c c' Hall; simpl.
    - by intros [= <-].
    - destruct (exec1 a c) as [c1|] eqn:H1; [|done]. simpl. intros Hs Harr.
      assert (Forall pollfree (pool c1)) as Hall1.
      { eapply pollfree_exec1; [|done|done]. intros t ->. apply Harr. by left. }
      destruct (IH c1 c' Hall1 Hs) as [Hall' Hkeep].
      { intros t Hin. apply Harr. by right. }
      split; [done|]. intros i e Hi. apply Hkeep.
      destruct a as [d|t|i0|i0 j0|i0|j0]; simpl in H1.
      + case_decide; [|done]. by injection H1 as <-.
      + destruct (is_entry t); [|done]. injection H1 as <-. simpl.
        by apply lookup_app_l_Some.
      + destruct (pool c !! i0) as [t|] eqn:Hi0; [|done]. simpl in H1.
        destruct (enter (clock c) t) as [t'|] eqn:He; [|done].
        injection H1 as <-. simpl.
        destruct (decide (i0 = i)) as [->|Hne];
          [|by rewrite list_lookup_insert_ne].
        rewrite Hi in Hi0. injection Hi0 as <-. done.
      + destruct (pool c !! i0) as [s0|] eqn:Hi0; [|done]. simpl in H1.
        destruct (pool c !! j0) as [r0|] eqn:Hj0; [|done]. simpl in H1.
        destruct s0 as [| | | |e0| |]; try done.
        destruct r0 as [|d| | | | |]; try done.
        by pose proof (Forall_lookup_1 _ _ _ _ Hall Hj0) as [Hpoll _].
      + destruct (pool c !! i0) as [t|] eqn:Hi0; [|done]. simpl in H1.
        destruct (answer t) as [t'|] eqn:Ha; [|done].
        injection H1 as <-. simpl.
        destruct (decide (i0 = i)) as [->|Hne];
          [|by rewrite list_lookup_insert_ne].
        rewrite Hi in Hi0. injection Hi0 as <-. done.
      + destruct (pool c !! j0) as [t|] eqn:Hj0; [|done]. simpl in H1.
        destruct t as [|d| | | | |]; try done.
        by pose proof (Forall_lookup_1 _ _ _ _ Hall Hj0) as [Hpoll _]. }
  intros Hs Harr.
  destruct (Hrun s initial c) as [Hall _]; [by apply Forall_nil|done|done|].
  split; [|split].
  - intros t Hin.
    destruct (proj1 (list.Forall_forall _ _) Hall t Hin) as [_ Hsent].
    by destruct t.
  - intros i j. simpl.
    destruct (pool c !! i) as [s0|] eqn:Hi; [|done]. simpl.
    destruct (pool c !! j) as [r0|] eqn:Hj; [|done]. simpl.
    destruct s0 as [| | | |e0| |]; try done.
    destruct r0 as [|d| | | | |]; try done.
    by pose proof (Forall_lookup_1 _ _ _ _ Hall Hj) as [Hpoll _].
  - intros i e s' c' Hi Hs' Harr'.
    by apply (proj2 (Hrun s' c c' Hall Hs' Harr') i e).
Qed.

(** X14 after [lonelyPublish]: an hour on, the publish is still in its
    send. *)
Lemma X14_publish_waits_for_a_poll_witness :
  ∃ c, exec lonelyPublish initial = Some c
       ∧ pool c = [PublishSending (mkEvent "hello" 0)]
       ∧ ∀ i j, exec1 (Handoff i j) c = None.
Proof.
  destruct (exec lonelyPublish initial) as [c|] eqn:Hc; [|by vm_compute in Hc].
  exists c. split; [done|]. split.
  - vm_compute in Hc. by injection Hc as <-.
  - refine (proj1 (proj2 (X14_publish_waits_for_a_poll lonelyPublish c Hc _))).
    intros t Hin. unfold lonelyPublish in Hin.
    apply elem_of_cons in Hin as [[= ->]|Hin]; [done|].
    apply elem_of_cons in Hin as [[=]|Hin].
    apply elem_of_cons in Hin as [[=]|Hin].
    by apply elem_of_nil in Hin.
Defined.

End SingleChannelFacts.
